(** * Storage layer and Set transaction of the namespace-leasing ledger

    A shallow embedding of [chain/storage.go] (key codec, prefix registry,
    expiry scheduler, pruner, range reader) and of [chain/set_tx.go]
    ([SetTx.Execute], [SetTx.updatePrefix]).

    Byte strings are [list byte]; Go's [int64] values are [Z] with the
    two's-complement wrap-around written out ([wrap64]); the key-value store
    is avalanchego's in-memory database: a finite map iterated in ascending
    byte order, whose iterators work on a snapshot taken at creation. *)

From Stdlib Require Import ZArith List Bool Lia Sorted.
From Stdlib.Strings Require Import Byte.
Import ListNotations.
Open Scope Z_scope.

Definition bytes := list byte.

(** ** Go's [bytes] package *)

Module Bytes.

Fixpoint cmp (a b : bytes) : comparison :=
  match a, b with
  | [], [] => Eq
  | [], _ :: _ => Lt
  | _ :: _, [] => Gt
  | x :: a', y :: b' =>
      match N.compare (Byte.to_N x) (Byte.to_N y) with
      | Eq => cmp a' b'
      | c => c
      end
  end.

(** [bytes.Compare]: -1, 0 or +1, bytes compared as unsigned numbers. *)
Definition Compare (a b : bytes) : Z :=
  match cmp a b with Lt => -1 | Eq => 0 | Gt => 1 end.

(** [bytes.Equal] *)
Definition Equal (a b : bytes) : bool :=
  match cmp a b with Eq => true | _ => false end.

(** [bytes.HasPrefix] *)
Fixpoint HasPrefix (s p : bytes) : bool :=
  match p, s with
  | [], _ => true
  | _ :: _, [] => false
  | y :: p', x :: s' => Byte.eqb x y && HasPrefix s' p'
  end.

(** [len(b)] as a Go [int]. *)
Definition len (b : bytes) : Z := Z.of_nat (length b).

End Bytes.

(** ** [encoding/binary], little-endian *)

Module LittleEndian.

Definition byte_of_Z (z : Z) : byte :=
  match Byte.of_N (Z.to_N (z mod 256)) with
  | Some b => b
  | None => x00
  end.

Fixpoint put (n : nat) (u : Z) : bytes :=
  match n with
  | O => []
  | S n' => byte_of_Z u :: put n' (u / 256)
  end.

(** [uint64(t)] of an [int64]. *)
Definition to_uint64 (t : Z) : Z := t mod 2 ^ 64.

(** [int64(u)] of a [uint64]. *)
Definition to_int64 (u : Z) : Z :=
  if u <? 2 ^ 63 then u else u - 2 ^ 64.

(** [binary.LittleEndian.PutUint64]: the eight bytes written. *)
Definition PutUint64 (u : Z) : bytes := put 8 u.

(** [binary.LittleEndian.Uint64] *)
Fixpoint Uint64 (b : bytes) : Z :=
  match b with
  | [] => 0
  | x :: r => Z.of_N (Byte.to_N x) + 256 * Uint64 r
  end.

End LittleEndian.

(** ** [int64] arithmetic *)

Definition wrap64 (z : Z) : Z := (z + 2 ^ 63) mod 2 ^ 64 - 2 ^ 63.

Definition add64 (a b : Z) : Z := wrap64 (a + b).
Definition sub64 (a b : Z) : Z := wrap64 (a - b).
Definition mul64 (a b : Z) : Z := wrap64 (a * b).

(** ** Identifiers and records *)

Definition shortIDLen : nat := 20.

(** [ids.ShortID] is a [[20]byte]. *)
Definition ShortID := bytes.

Definition ShortEmpty : ShortID := repeat x00 shortIDLen.

Module PrefixInfo.
Record t := mk {
  Owner : bytes;
  Created : Z;
  LastUpdated : Z;
  Expiry : Z;
  Units : Z;
  RawPrefix : ShortID
}.
End PrefixInfo.

Module SetTx.
(** [Prefix] and [Sender] come from the embedded [BaseTx]. *)
Record t := mk {
  Prefix : bytes;
  Sender : bytes;
  Key : bytes;
  Value : bytes
}.
End SetTx.

Record KeyValue := mkKeyValue { Key : bytes; Value : bytes }.

(** ** Errors *)

Inductive error :=
| ErrInvalidKeyFormat
| ErrPrefixMissing
| ErrUnauthorized
| ErrPrefixExpired
| ErrKeyMissing
| ErrValueTooBig
| ErrParser (code : nat)       (* an error of the [parser] package *)
| ErrCodec                     (* an error of [Marshal] / [Unmarshal] *)
| ErrShortIDLength.            (* [ids.ToShortID] on a slice that is not 20 bytes *)

(** Run-time panics of the Go code. *)
Inductive panic :=
| DivideByZero
| SliceBounds.

(** ** The key-value store *)

(** The calls that write to a database handle. *)
Inductive WriteOp :=
| OpPut (k v : bytes)
| OpDelete (k : bytes).

(** [entries]: the content, kept in ascending key order; [journal]: the
    write calls made on the handle so far, oldest first. *)
Record Database := mkDB {
  entries : list (bytes * bytes);
  journal : list WriteOp
}.

Module memdb.

Definition New : Database := mkDB [] [].

Fixpoint insert (k v : bytes) (l : list (bytes * bytes)) : list (bytes * bytes) :=
  match l with
  | [] => [(k, v)]
  | (k', v') :: r =>
      match Bytes.cmp k k' with
      | Lt => (k, v) :: l
      | Eq => (k, v) :: r
      | Gt => (k', v') :: insert k v r
      end
  end.

Definition remove (k : bytes) (l : list (bytes * bytes)) : list (bytes * bytes) :=
  filter (fun e => negb (Bytes.Equal k (fst e))) l.

(** [db.Get]: [None] is [database.ErrNotFound]. *)
Definition Get (db : Database) (k : bytes) : option bytes :=
  option_map snd (find (fun e => Bytes.Equal k (fst e)) (entries db)).

Definition Has (db : Database) (k : bytes) : bool :=
  match Get db k with Some _ => true | None => false end.

Definition Put (db : Database) (k v : bytes) : Database :=
  mkDB (insert k v (entries db)) (journal db ++ [OpPut k v]).

Definition Delete (db : Database) (k : bytes) : Database :=
  mkDB (remove k (entries db)) (journal db ++ [OpDelete k]).

(** [db.NewIteratorWithStart]: the pairs whose key is at or after [start],
    in ascending key order, as they are when the iterator is created. *)
Definition NewIteratorWithStart (db : Database) (start : bytes) : list (bytes * bytes) :=
  filter (fun e => 0 <=? Bytes.Compare (fst e) start) (entries db).

(** [db.NewIteratorWithPrefix] *)
Definition NewIteratorWithPrefix (db : Database) (prefix : bytes) : list (bytes * bytes) :=
  filter (fun e => Bytes.HasPrefix (fst e) prefix) (entries db).

(** [database.ClearPrefix(db, db, prefix)]: deletes every key that starts
    with [prefix]. *)
Definition ClearPrefix (db : Database) (prefix : bytes) : Database :=
  fold_left (fun d e => Delete d (fst e)) (NewIteratorWithPrefix db prefix) db.

End memdb.

(** The order in which a store keeps, and an iterator yields, its pairs. *)
Definition key_lt (a b : bytes * bytes) : Prop := Bytes.cmp (fst a) (fst b) = Lt.

Definition ascending (l : list (bytes * bytes)) : Prop := StronglySorted key_lt l.

(** ** Stateful, fallible computations

    A computation runs on a database and ends by returning a value, by
    returning an error, or by panicking; the database it leaves is kept in
    every case. *)

Inductive outcome (A : Type) :=
| Ret (a : A)
| Err (e : error)
| Panicked (p : panic).
Arguments Ret {A} a.
Arguments Err {A} e.
Arguments Panicked {A} p.

Definition M (A : Type) : Type := Database -> outcome A * Database.

Definition ret {A} (a : A) : M A := fun db => (Ret a, db).
Definition fail {A} (e : error) : M A := fun db => (Err e, db).
Definition crash {A} (p : panic) : M A := fun db => (Panicked p, db).

Definition bind {A B} (m : M A) (f : A -> M B) : M B :=
  fun db =>
    match m db with
    | (Ret a, db') => f a db'
    | (Err e, db') => (Err e, db')
    | (Panicked p, db') => (Panicked p, db')
    end.

Notation "x <- m ;; k" := (bind m (fun x => k))
  (at level 61, m at next level, right associativity).
Notation "m ;;; k" := (bind m (fun _ => k))
  (at level 61, right associativity).

Definition db_get (k : bytes) : M (option bytes) := fun db => (Ret (memdb.Get db k), db).
Definition db_put (k v : bytes) : M unit := fun db => (Ret tt, memdb.Put db k v).
Definition db_delete (k : bytes) : M unit := fun db => (Ret tt, memdb.Delete db k).
Definition db_iterate (start : bytes) : M (list (bytes * bytes)) :=
  fun db => (Ret (memdb.NewIteratorWithStart db start), db).
Definition db_clear_prefix (prefix : bytes) : M unit :=
  fun db => (Ret tt, memdb.ClearPrefix db prefix).

(** ** The chain package *)

(** What the package takes from its collaborators: the [parser] package
    ([Delimiter], [CheckKey], [GetRangeEnd]), the constants and the value
    cost function of the chain ([MaxValueLength], [Units]), avalanchego's
    hash ([ComputeHash160]) and the codec ([Marshal], [Unmarshal]; [None]
    is an error). *)
Class Collaborators := {
  Delimiter : byte;
  CheckKey : bytes -> option error;
  GetRangeEnd : bytes -> bytes;
  MaxValueLength : Z;
  Units : bytes -> Z;
  ComputeHash160 : bytes -> bytes;
  Marshal : PrefixInfo.t -> option bytes;
  Unmarshal : bytes -> option PrefixInfo.t
}.

Section Chain.

Context `{Collaborators}.

Definition blockPrefix : byte := x00.
Definition txPrefix : byte := x01.
Definition infoPrefix : byte := x02.
Definition keyPrefix : byte := x03.
Definition expiryPrefix : byte := x04.
Definition pruningPrefix : byte := x05.

Definition MaxInt64 : Z := 2 ^ 63 - 1.

Definition lastAccepted : bytes :=
  ["l"; "a"; "s"; "t"; "_"; "a"; "c"; "c"; "e"; "p"; "t"; "e"; "d"]%byte.

(** [ids.ToShortID] *)
Definition ToShortID (b : bytes) : outcome ShortID :=
  if Nat.eqb (length b) shortIDLen then Ret b else Err ErrShortIDLength.

(** Lifts a computation that does not touch the database. *)
Definition lift {A} (o : outcome A) : M A := fun db => (o, db).

(** [[infoPrefix] + [delimiter] + [prefix]] *)
Definition PrefixInfoKey (prefix : bytes) : bytes :=
  infoPrefix :: Delimiter :: prefix.

Definition RawPrefix (prefix : bytes) (blockTime : Z) : outcome ShortID :=
  let r := prefix ++ Delimiter :: LittleEndian.PutUint64 (LittleEndian.to_uint64 blockTime) in
  let h := ComputeHash160 r in
  ToShortID h.

(** [[keyPrefix] + [delimiter] + [rawPrefix] + [delimiter] + [key]] *)
Definition PrefixValueKey (rprefix : ShortID) (key : bytes) : bytes :=
  keyPrefix :: Delimiter :: rprefix ++ Delimiter :: key.

(** [[expiry/pruningPrefix] + [delimiter] + [timestamp] + [delimiter]] *)
Definition RangeTimeKey (p : byte) (t : Z) : bytes :=
  p :: Delimiter :: LittleEndian.PutUint64 (LittleEndian.to_uint64 t) ++ [Delimiter].

Definition specificTimeKeyLen : nat := 2 + 8 + 1 + shortIDLen.

(** [[expiry/pruningPrefix] + [delimiter] + [timestamp] + [delimiter] + [rawPrefix]] *)
Definition specificTimeKey (p : byte) (t : Z) (rprefix : ShortID) : bytes :=
  p :: Delimiter :: LittleEndian.PutUint64 (LittleEndian.to_uint64 t) ++ Delimiter :: rprefix.

Definition PrefixExpiryKey (expiry : Z) (rprefix : ShortID) : bytes :=
  specificTimeKey expiryPrefix expiry rprefix.

Definition PrefixPruningKey (expired : Z) (rprefix : ShortID) : bytes :=
  specificTimeKey pruningPrefix expired rprefix.

(** Extracts the expiry/pruning timestamp and the raw prefix. *)
Definition extractSpecificTimeKey (k : bytes) : outcome (Z * ShortID) :=
  if negb (Nat.eqb (length k) specificTimeKeyLen) then Err ErrInvalidKeyFormat
  else
    let timestamp := LittleEndian.to_int64 (LittleEndian.Uint64 (firstn 8 (skipn 2 k))) in
    match ToShortID (skipn (2 + 8 + 1) k) with
    | Ret rprefix => Ret (timestamp, rprefix)
    | Err e => Err e
    | Panicked p => Panicked p
    end.

(** *** Prefix registry *)

(** [Ret None] is the Go result [(nil, false, nil)]. *)
Definition GetPrefixInfo (prefix : bytes) : M (option PrefixInfo.t) :=
  let k := PrefixInfoKey prefix in
  r <- db_get k ;;
  match r with
  | None => ret None
  | Some v =>
      match Unmarshal v with
      | Some i => ret (Some i)
      | None => fail ErrCodec
      end
  end.

(** [Ret None] is the Go result [(nil, false, nil)]. *)
Definition GetValue (prefix key : bytes) : M (option bytes) :=
  r <- GetPrefixInfo prefix ;;
  match r with
  | None => ret None
  | Some prefixInfo =>
      let k := PrefixValueKey (PrefixInfo.RawPrefix prefixInfo) key in
      db_get k
  end.

Definition HasPrefix (prefix : bytes) : M bool :=
  fun db => (Ret (memdb.Has db (PrefixInfoKey prefix)), db).

Definition HasPrefixKey (prefix key : bytes) : M bool :=
  r <- GetPrefixInfo prefix ;;
  match r with
  | None => ret false
  | Some prefixInfo =>
      let k := PrefixValueKey (PrefixInfo.RawPrefix prefixInfo) key in
      fun db => (Ret (memdb.Has db k), db)
  end.

Definition setRawPrefix (i : PrefixInfo.t) (rprefix : ShortID) : PrefixInfo.t :=
  PrefixInfo.mk (PrefixInfo.Owner i) (PrefixInfo.Created i) (PrefixInfo.LastUpdated i)
    (PrefixInfo.Expiry i) (PrefixInfo.Units i) rprefix.

(** The record [i] points to once [PutPrefixInfo] has filled in a missing
    raw prefix. *)
Definition fillRawPrefix (prefix : bytes) (i : PrefixInfo.t) : M PrefixInfo.t :=
  if Bytes.Equal (PrefixInfo.RawPrefix i) ShortEmpty then
    rprefix <- lift (RawPrefix prefix (PrefixInfo.Created i)) ;;
    ret (setRawPrefix i rprefix)
  else ret i.

(** The record behind [i] when [PutPrefixInfo] writes: a missing raw prefix
    has been computed from the prefix and the creation time. *)
Definition registered (prefix : bytes) (i : PrefixInfo.t) : PrefixInfo.t :=
  if Bytes.Equal (PrefixInfo.RawPrefix i) ShortEmpty then
    setRawPrefix i
      (ComputeHash160
         (prefix ++ Delimiter
            :: LittleEndian.PutUint64 (LittleEndian.to_uint64 (PrefixInfo.Created i))))
  else i.

Definition PutPrefixInfo (prefix : bytes) (i : PrefixInfo.t) (lastExpiry : Z) : M unit :=
  i <- fillRawPrefix prefix i ;;
  (if 0 <=? lastExpiry then
     db_delete (PrefixExpiryKey lastExpiry (PrefixInfo.RawPrefix i))
   else ret tt) ;;;
  db_put (PrefixExpiryKey (PrefixInfo.Expiry i) (PrefixInfo.RawPrefix i)) prefix ;;;
  match Marshal i with
  | None => fail ErrCodec
  | Some b => db_put (PrefixInfoKey prefix) b
  end.

Definition PutPrefixKey (prefix key value : bytes) : M unit :=
  r <- GetPrefixInfo prefix ;;
  match r with
  | None => fail ErrPrefixMissing
  | Some prefixInfo =>
      db_put (PrefixValueKey (PrefixInfo.RawPrefix prefixInfo) key) value
  end.

Definition DeletePrefixKey (prefix key : bytes) : M unit :=
  r <- GetPrefixInfo prefix ;;
  match r with
  | None => fail ErrPrefixMissing
  | Some prefixInfo =>
      db_delete (PrefixValueKey (PrefixInfo.RawPrefix prefixInfo) key)
  end.

(** *** Set transaction *)

(** Go's [/] on [int64]: truncated, and a run-time panic on a zero divisor. *)
Definition div64 (a b : Z) : M Z :=
  if b =? 0 then crash DivideByZero else ret (wrap64 (Z.quot a b)).

Definition setLease (i : PrefixInfo.t) (lastUpdated expiry units : Z) : PrefixInfo.t :=
  PrefixInfo.mk (PrefixInfo.Owner i) (PrefixInfo.Created i) lastUpdated expiry units
    (PrefixInfo.RawPrefix i).

Definition updatePrefix (s : SetTx.t) (blockTime : Z) (i : PrefixInfo.t) : M unit :=
  r <- GetValue (SetTx.Prefix s) (SetTx.Key s) ;;
  let timeRemaining :=
    mul64 (sub64 (PrefixInfo.Expiry i) (PrefixInfo.LastUpdated i)) (PrefixInfo.Units i) in
  units <-
    (if Bytes.len (SetTx.Value s) =? 0 then
       match r with
       | None => fail ErrKeyMissing
       | Some v =>
           let units := sub64 (PrefixInfo.Units i) (Units v) in
           DeletePrefixKey (SetTx.Prefix s) (SetTx.Key s) ;;;
           ret units
       end
     else
       let units :=
         match r with
         | Some v => sub64 (PrefixInfo.Units i) (Units v)
         | None => PrefixInfo.Units i
         end in
       let units := add64 units (Units (SetTx.Value s)) in
       PutPrefixKey (SetTx.Prefix s) (SetTx.Key s) (SetTx.Value s) ;;;
       ret units) ;;
  newTimeRemaining <- div64 timeRemaining units ;;
  let lastExpiry := PrefixInfo.Expiry i in
  PutPrefixInfo (SetTx.Prefix s)
    (setLease i blockTime (add64 blockTime newTimeRemaining) units) lastExpiry.

Definition Execute (s : SetTx.t) (blockTime : Z) : M unit :=
  match CheckKey (SetTx.Key s) with
  | Some err => fail err
  | None =>
      if Bytes.len (SetTx.Value s) >? MaxValueLength then fail ErrValueTooBig
      else
        r <- GetPrefixInfo (SetTx.Prefix s) ;;
        match r with
        | None => fail ErrPrefixMissing
        | Some i =>
            if negb (Bytes.Equal (PrefixInfo.Owner i) (SetTx.Sender s)) then fail ErrUnauthorized
            else if PrefixInfo.Expiry i <? blockTime then fail ErrPrefixExpired
            else updatePrefix s blockTime i
        end
  end.

(** *** Expiry scheduler *)

Fixpoint ExpireNext_loop (startKey endKey : bytes) (cursor : list (bytes * bytes)) : M unit :=
  match cursor with
  | [] => ret tt
  | (curKey, pfx) :: rest =>
      if Bytes.Compare startKey curKey <? -1 then ExpireNext_loop startKey endKey rest
      else if Bytes.Compare curKey endKey >? 0 then ret tt
      else
        db_delete curKey ;;;
        db_delete (PrefixInfoKey pfx) ;;;
        tr <- lift (extractSpecificTimeKey curKey) ;;
        db_put (PrefixPruningKey (fst tr) (snd tr)) [] ;;;
        ExpireNext_loop startKey endKey rest
  end.

Definition ExpireNext (parent current : Z) : M unit :=
  let startKey := RangeTimeKey expiryPrefix parent in
  let endKey := RangeTimeKey expiryPrefix current in
  cursor <- db_iterate startKey ;;
  ExpireNext_loop startKey endKey cursor.

(** *** Pruner *)

(** The loop of [PruneNext]; its result is the final value of the local
    counter [removals]. *)
Fixpoint PruneNext_loop (limit : Z) (startKey endKey : bytes)
  (cursor : list (bytes * bytes)) (removals : Z) : M Z :=
  match cursor with
  | [] => ret removals
  | (curKey, _) :: rest =>
      if negb (removals <? limit) then ret removals
      else if Bytes.Compare startKey curKey <? -1 then
        PruneNext_loop limit startKey endKey rest removals
      else if Bytes.Compare curKey endKey >? 0 then ret removals
      else
        tr <- lift (extractSpecificTimeKey curKey) ;;
        db_delete curKey ;;;
        db_clear_prefix (PrefixValueKey (snd tr) []) ;;;
        PruneNext_loop limit startKey endKey rest (removals + 1)
  end.

Definition PruneNext (limit : Z) : M unit :=
  let startKey := RangeTimeKey pruningPrefix 0 in
  let endKey := RangeTimeKey pruningPrefix MaxInt64 in
  cursor <- db_iterate startKey ;;
  PruneNext_loop limit startKey endKey cursor 0 ;;;
  ret tt.

(** *** Range reader *)

Record Op := mkOp {
  key : bytes;
  rangeEnd : bytes;
  rangeLimit : N    (* uint32 *)
}.

Definition OpOption := Op -> Op.

Definition applyOpts (op : Op) (opts : list OpOption) : Op :=
  fold_left (fun o opt => opt o) opts op.

Definition WithPrefix : OpOption :=
  fun op => mkOp (key op) (GetRangeEnd (key op)) (rangeLimit op).

Definition WithRangeEnd (end_ : bytes) : OpOption :=
  fun op => mkOp (key op) end_ (rangeLimit op).

Definition WithRangeLimit (limit : N) : OpOption :=
  fun op => mkOp (key op) (rangeEnd op) limit.

(** Length of the [[keyPrefix] + [delimiter] + [rawPrefix] + [delimiter]]
    header of a value key. *)
Definition valueKeyHeaderLen : nat := 2 + shortIDLen + 1.

Fixpoint Range_loop (rangeLimit : N) (startKey endKey : bytes)
  (cursor : list (bytes * bytes)) (kvs : list KeyValue) : outcome (list KeyValue) :=
  match cursor with
  | [] => Ret kvs
  | (curKey, value) :: rest =>
      if ((0 <? rangeLimit) && (N.of_nat (length kvs) =? rangeLimit))%N then Ret kvs
      else if (length curKey <? valueKeyHeaderLen)%nat then Panicked SliceBounds
      else
        let formattedKey := skipn valueKeyHeaderLen curKey in
        let comp := Bytes.Compare startKey curKey in
        if comp =? 0 then
          Range_loop rangeLimit startKey endKey rest (kvs ++ [mkKeyValue formattedKey value])
        else if comp <? -1 then Range_loop rangeLimit startKey endKey rest kvs
        else if Bytes.len endKey =? 0 then Ret kvs
        else if Bytes.Compare curKey endKey >=? 0 then Ret kvs
        else Range_loop rangeLimit startKey endKey rest (kvs ++ [mkKeyValue formattedKey value])
  end.

(** The end key of the scan: empty when no range end was set, a range end
    that is not yet a value key is made one of the namespace. *)
Definition Range_endKey (rprefix : ShortID) (ret_ : Op) : bytes :=
  if 0 <? Bytes.len (rangeEnd ret_) then
    if negb (Bytes.HasPrefix (rangeEnd ret_) [keyPrefix; Delimiter]) then
      PrefixValueKey rprefix (rangeEnd ret_)
    else rangeEnd ret_
  else [].

(** The keys the scan appends to its result: the start key itself, and,
    when there is an end key, the keys before it. *)
Definition selected (startKey endKey curKey : bytes) : Prop :=
  Bytes.Compare startKey curKey = 0 \/
  (0 < Bytes.len endKey /\ Bytes.Compare curKey endKey < 0).

(** The scan meets no key shorter than the header of a value key before
    it stops: the slice expression [curKey[2+shortIDLen+1:]] is in bounds
    at every step. *)
Fixpoint scan_safe (startKey endKey : bytes) (cursor : list (bytes * bytes)) : Prop :=
  match cursor with
  | [] => True
  | (curKey, _) :: rest =>
      (valueKeyHeaderLen <= length curKey)%nat /\
      (selected startKey endKey curKey -> scan_safe startKey endKey rest)
  end.

(** An option that leaves the limit of the operation alone. *)
Definition keepsLimit (opt : OpOption) : Prop :=
  forall op, rangeLimit (opt op) = rangeLimit op.

(** The slice returned is [None] for Go's [nil] and [Some l] for a
    non-nil slice holding [l]. *)
Definition Range (prefix key' : bytes) (opts : list OpOption) : M (option (list KeyValue)) :=
  r <- GetPrefixInfo prefix ;;
  match r with
  | None => fail ErrPrefixMissing
  | Some prefixInfo =>
      let ret_ := applyOpts (mkOp (PrefixValueKey (PrefixInfo.RawPrefix prefixInfo) key') [] 0%N) opts in
      let startKey := key ret_ in
      let endKey := Range_endKey (PrefixInfo.RawPrefix prefixInfo) ret_ in
      cursor <- db_iterate startKey ;;
      kvs <- lift (Range_loop (rangeLimit ret_) startKey endKey cursor []) ;;
      ret (Some kvs)
  end.

End Chain.

(** ** Blocks, transactions and the cost of a Set transaction *)

Section Ledger.

Context `{Collaborators}.

Definition idLen : nat := 32.

(** [ids.ID] is a [[32]byte]. *)
Definition ID := bytes.

(** [ids.ID{}] *)
Definition IDEmpty : ID := repeat x00 idLen.

(** [ids.ToID]: [None] is its error on a slice that is not 32 bytes. *)
Definition ToID (b : bytes) : option ID :=
  if Nat.eqb (length b) idLen then Some b else None.

(** [[blockPrefix] + [delimiter] + [blockID]] *)
Definition PrefixBlockKey (blockID : ID) : bytes :=
  blockPrefix :: Delimiter :: blockID.

(** [[txPrefix] + [delimiter] + [txID]] *)
Definition PrefixTxKey (txID : ID) : bytes :=
  txPrefix :: Delimiter :: txID.

(** What the storage layer uses of a [*StatelessBlock]: the results of
    [block.ID()] and [block.Bytes()]. *)
Record StatelessBlock := mkBlock {
  blockID : ID;
  blockBytes : bytes
}.

Definition SetLastAccepted (block : StatelessBlock) : M unit :=
  let bid := blockID block in
  db_put lastAccepted bid ;;;
  db_put (PrefixBlockKey bid) (blockBytes block).

Definition HasLastAccepted : M bool :=
  fun db => (Ret (memdb.Has db lastAccepted), db).

(** [None] is the error of [ids.ToID]; a store without the pointer gives
    the empty ID and no error. *)
Definition GetLastAccepted (db : Database) : option ID :=
  match memdb.Get db lastAccepted with
  | None => Some IDEmpty
  | Some v => ToID v
  end.

(** [None] is [database.ErrNotFound]. *)
Definition GetBlock (db : Database) (bid : ID) : option bytes :=
  memdb.Get db (PrefixBlockKey bid).

(** What the storage layer uses of a [*Transaction]: the result of
    [tx.ID()] and of [Marshal(tx)] ([None] is a codec error). *)
Record Transaction := mkTransaction {
  txID : ID;
  txMarshal : option bytes
}.

Definition SetTransaction (tx : Transaction) : M unit :=
  let k := PrefixTxKey (txID tx) in
  match txMarshal tx with
  | None => fail ErrCodec
  | Some b => db_put k b
  end.

Definition HasTransaction (db : Database) (txID : ID) : bool :=
  memdb.Has db (PrefixTxKey txID).

(** [(s *SetTx) Units()], the cost of the transaction; [SetValueDiscount]
    is a non-zero constant of the package. *)
Definition SetTx_Units (SetValueDiscount : Z) (s : SetTx.t) : Z :=
  if Bytes.len (SetTx.Value s) =? 0 then 1
  else
    let u := Units (SetTx.Value s) in
    add64 (wrap64 (Z.quot u SetValueDiscount)) 1.

(** The [Units] of a prefix once [updatePrefix] has accounted for a
    transaction of value [value] on a key that held [stored]: the stored
    value's cost is taken off, the new value's cost is added. *)
Definition unitsAfter (i : PrefixInfo.t) (stored : option bytes) (value : bytes) : Z :=
  let freed :=
    match stored with
    | Some v => sub64 (PrefixInfo.Units i) (Units v)
    | None => PrefixInfo.Units i
    end in
  if Bytes.len value =? 0 then freed else add64 freed (Units value).

(** The record [updatePrefix] registers at [blockTime] for the new
    [units]: the unit-seconds left on the lease are spread over them. *)
Definition leaseAfter (i : PrefixInfo.t) (blockTime units : Z) : PrefixInfo.t :=
  let timeRemaining :=
    mul64 (sub64 (PrefixInfo.Expiry i) (PrefixInfo.LastUpdated i)) (PrefixInfo.Units i) in
  setLease i blockTime (add64 blockTime (wrap64 (Z.quot timeRemaining units))) units.

(** The store once [updatePrefix] has written or deleted the value. *)
Definition valueWritten (db : Database) (i : PrefixInfo.t) (s : SetTx.t) : Database :=
  let k := PrefixValueKey (PrefixInfo.RawPrefix i) (SetTx.Key s) in
  if Bytes.len (SetTx.Value s) =? 0 then memdb.Delete db k
  else memdb.Put db k (SetTx.Value s).

End Ledger.

(** ** A concrete instance of the collaborators

    Used to run the model on concrete stores: the delimiter is ['/'], keys
    are non-empty, at most 256 bytes and free of the delimiter, values are
    at most 256 bytes and cost one unit per started 64 bytes, the hash keeps
    the first 20 bytes of its zero-padded input, and a record is serialised
    field by field at fixed widths with the owner last. *)

Module Sample.

Definition Delimiter : byte := "/"%byte.

Definition MaxKeyLength : Z := 256.
Definition MaxValueLength : Z := 256.

Definition CheckKey (k : bytes) : option error :=
  if Bytes.len k =? 0 then Some (ErrParser 0)
  else if Bytes.len k >? MaxKeyLength then Some (ErrParser 1)
  else if existsb (Byte.eqb Delimiter) k then Some (ErrParser 2)
  else None.

(** Smallest key after every key that starts with [k]. *)
Fixpoint GetRangeEnd (k : bytes) : bytes :=
  match k with
  | [] => [x00]
  | b :: r =>
      if forallb (Byte.eqb xff) r then
        if Byte.eqb b xff then [x00]
        else [LittleEndian.byte_of_Z (Z.of_N (Byte.to_N b) + 1)]
      else b :: GetRangeEnd r
  end.

Definition Units (v : bytes) : Z := Bytes.len v / 64 + 1.

Definition ComputeHash160 (r : bytes) : bytes :=
  firstn shortIDLen (r ++ repeat x00 shortIDLen).

Definition put64 (z : Z) : bytes := LittleEndian.PutUint64 (LittleEndian.to_uint64 z).
Definition get64 (b : bytes) : Z := LittleEndian.to_int64 (LittleEndian.Uint64 b).

Definition Marshal (i : PrefixInfo.t) : option bytes :=
  Some (put64 (PrefixInfo.Created i) ++ put64 (PrefixInfo.LastUpdated i)
        ++ put64 (PrefixInfo.Expiry i) ++ put64 (PrefixInfo.Units i)
        ++ firstn shortIDLen (PrefixInfo.RawPrefix i ++ repeat x00 shortIDLen)
        ++ PrefixInfo.Owner i).

Definition Unmarshal (b : bytes) : option PrefixInfo.t :=
  if (length b <? 32 + shortIDLen)%nat then None
  else
    Some (PrefixInfo.mk
            (skipn (32 + shortIDLen) b)
            (get64 (firstn 8 b))
            (get64 (firstn 8 (skipn 8 b)))
            (get64 (firstn 8 (skipn 16 b)))
            (get64 (firstn 8 (skipn 24 b)))
            (firstn shortIDLen (skipn 32 b))).

Definition env : Collaborators :=
  Build_Collaborators Delimiter CheckKey GetRangeEnd MaxValueLength Units
    ComputeHash160 Marshal Unmarshal.

Definition PutPrefixInfo := @PutPrefixInfo env.
Definition GetPrefixInfo := @GetPrefixInfo env.
Definition GetValue := @GetValue env.
Definition PutPrefixKey := @PutPrefixKey env.
Definition DeletePrefixKey := @DeletePrefixKey env.
Definition Execute := @Execute env.
Definition ExpireNext := @ExpireNext env.
Definition PruneNext := @PruneNext env.
Definition Range := @Range env.
Definition WithPrefix := @WithPrefix env.
Definition PrefixExpiryKey := @PrefixExpiryKey env.
Definition PrefixPruningKey := @PrefixPruningKey env.
Definition PrefixValueKey := @PrefixValueKey env.
Definition PrefixInfoKey := @PrefixInfoKey env.
Definition RangeTimeKey := @RangeTimeKey env.

(** The same collaborators at a moment when the codec cannot serialise:
    [Marshal] returns its error, everything else is as in [env]. *)
Definition env_codec_down : Collaborators :=
  Build_Collaborators Delimiter CheckKey GetRangeEnd MaxValueLength Units
    ComputeHash160 (fun _ => None) Unmarshal.

(** Byte strings of the examples. *)
Definition foo : bytes := ["f"; "o"; "o"]%byte.
Definition hello : bytes := ["h"; "e"; "l"; "l"; "o"]%byte.
Definition world : bytes := ["w"; "o"; "r"; "l"; "d"]%byte.
Definition alice : bytes := repeat "a"%byte 20.
Definition bob : bytes := repeat "b"%byte 20.

Definition ClaimReward : Z := 60.

(** The record a claim of [owner] at [blockTime] registers. *)
Definition claimed (owner : bytes) (blockTime : Z) : PrefixInfo.t :=
  PrefixInfo.mk owner blockTime blockTime (blockTime + ClaimReward) 0 ShortEmpty.

(** The database left by a run, whatever its outcome. *)
Definition after {A} (m : M A) (db : Database) : Database := snd (m db).

(** [foo] claimed by [alice] at time 1. *)
Definition db_claimed : Database := after (PutPrefixInfo foo (claimed alice 1) (-1)) memdb.New.

Definition set_hello : SetTx.t := SetTx.mk foo alice hello world.
Definition delete_hello : SetTx.t := SetTx.mk foo alice hello [].

(** ... and then [hello] set to [world] at time 2. *)
Definition db_hello : Database := after (Execute set_hello 2) db_claimed.

(** The record of [foo] in [db_claimed]. *)
Definition info_claimed : PrefixInfo.t := registered (H := env) foo (claimed alice 1).

(** The record of [foo] in [db_hello]. *)
Definition info_hello : PrefixInfo.t := setLease info_claimed 2 2 1.

(** [db_hello] once a block was accepted: the store also holds the pointer
    to the last accepted block, under a key of 13 bytes. *)
Definition db_hello_accepted : Database :=
  memdb.Put db_hello lastAccepted (repeat x01 32).

(** Transactions of [bob], who does not own [foo]. *)
Definition bob_sets_hello : SetTx.t := SetTx.mk foo bob hello world.
Definition bob_sets_oversized : SetTx.t := SetTx.mk foo bob hello (repeat x00 257).

(** [foo] claimed so that its lease ends at time 255, and at time 65536. *)
Definition db_expiring_255 : Database :=
  after (PutPrefixInfo foo (claimed alice 195) (-1)) memdb.New.
Definition db_expiring_65536 : Database :=
  after (PutPrefixInfo foo (claimed alice 65476) (-1)) memdb.New.

(** Three namespaces claimed at times 1, 2 and 3, each holding a value,
    and demoted by the scheduler at time 100. *)
Definition bar : bytes := ["b"; "a"; "r"]%byte.
Definition baz : bytes := ["b"; "a"; "z"]%byte.
Definition db_three_claimed : Database :=
  after (PutPrefixKey baz hello world)
    (after (PutPrefixInfo baz (claimed alice 3) (-1))
       (after (PutPrefixKey bar hello world)
          (after (PutPrefixInfo bar (claimed alice 2) (-1))
             (after (PutPrefixKey foo hello world) db_claimed)))).
Definition db_three_expired : Database := after (ExpireNext 0 100) db_three_claimed.

(** [foo] again, on a lease that runs from time 1 to time 101 and already
    pays for two units. *)
Definition info_leased : PrefixInfo.t :=
  registered (H := env) foo (PrefixInfo.mk alice 1 1 101 2 ShortEmpty).
Definition db_leased : Database := after (PutPrefixInfo foo info_leased (-1)) memdb.New.
Definition db_leased_hello : Database := after (Execute set_hello 10) db_leased.

(** The record of [foo] re-registered with a lease that ends at time 70. *)
Definition info_renewed : PrefixInfo.t := setLease info_claimed 2 70 1.

(** A block, a transaction and a discount. *)
Definition block1 : StatelessBlock := mkBlock (repeat x01 32) hello.
Definition tx1 : Transaction := mkTransaction (repeat x02 32) (Some world).
Definition SetValueDiscount : Z := 5.

End Sample.

(** ** Byte strings: comparison and equality *)

Lemma to_N_inj (x y : byte) : Byte.to_N x = Byte.to_N y -> x = y.
Proof.
  intros E.
  assert (S : Some x = Some y)
    by (rewrite <- (Byte.of_to_N x), <- (Byte.of_to_N y), E; reflexivity).
  now inversion S.
Qed.

Lemma cmp_refl (a : bytes) : Bytes.cmp a a = Eq.
Proof.
  induction a as [|x a IH]; simpl; [reflexivity|].
  now rewrite N.compare_refl.
Qed.

Lemma cmp_Eq (a b : bytes) : Bytes.cmp a b = Eq -> a = b.
Proof.
  revert b; induction a as [|x a IH]; intros [|y b]; simpl; try discriminate; auto.
  destruct (N.compare (Byte.to_N x) (Byte.to_N y)) eqn:C; try discriminate.
  intros E. apply N.compare_eq in C. apply to_N_inj in C. subst y.
  f_equal. now apply IH.
Qed.

Lemma Equal_true_iff (a b : bytes) : Bytes.Equal a b = true <-> a = b.
Proof.
  unfold Bytes.Equal; split.
  - destruct (Bytes.cmp a b) eqn:C; try discriminate. intros _. now apply cmp_Eq.
  - intros ->. now rewrite cmp_refl.
Qed.

Lemma Equal_false_iff (a b : bytes) : Bytes.Equal a b = false <-> a <> b.
Proof.
  rewrite <- Equal_true_iff. destruct (Bytes.Equal a b); split; congruence.
Qed.

Lemma Compare_range (a b : bytes) : -1 <= Bytes.Compare a b <= 1.
Proof. unfold Bytes.Compare; destruct (Bytes.cmp a b); lia. Qed.

Lemma Compare_refl (a : bytes) : Bytes.Compare a a = 0.
Proof. unfold Bytes.Compare; now rewrite cmp_refl. Qed.

Lemma Compare_0_eq (a b : bytes) : Bytes.Compare a b = 0 -> a = b.
Proof.
  unfold Bytes.Compare. destruct (Bytes.cmp a b) eqn:C; try discriminate.
  intros _. now apply cmp_Eq.
Qed.

Lemma cmp_antisym (a b : bytes) : Bytes.cmp a b = CompOpp (Bytes.cmp b a).
Proof.
  revert b; induction a as [|x a IH]; intros [|y b]; simpl; try reflexivity.
  rewrite (N.compare_antisym (Byte.to_N x) (Byte.to_N y)).
  destruct (N.compare (Byte.to_N x) (Byte.to_N y)); simpl; auto.
Qed.

Lemma cmp_Lt_trans (a b c : bytes) :
  Bytes.cmp a b = Lt -> Bytes.cmp b c = Lt -> Bytes.cmp a c = Lt.
Proof.
  revert b c; induction a as [|x a IH]; intros [|y b] [|z c]; simpl;
    try discriminate; auto.
  destruct (N.compare (Byte.to_N x) (Byte.to_N y)) eqn:Cxy; try discriminate;
    destruct (N.compare (Byte.to_N y) (Byte.to_N z)) eqn:Cyz; try discriminate;
    intros Hab Hbc.
  - apply N.compare_eq in Cxy, Cyz. rewrite Cxy, Cyz, N.compare_refl.
    now apply (IH b c).
  - apply N.compare_eq in Cxy. now rewrite Cxy, Cyz.
  - apply N.compare_eq in Cyz. now rewrite <- Cyz, Cxy.
  - rewrite N.compare_lt_iff in Cxy, Cyz.
    replace (N.compare (Byte.to_N x) (Byte.to_N z)) with Lt; [reflexivity|].
    symmetry. apply N.compare_lt_iff. lia.
Qed.

(** ** The store stays in ascending key order *)

Lemma filter_ascending (f : bytes * bytes -> bool) (l : list (bytes * bytes)) :
  ascending l -> ascending (filter f l).
Proof.
  induction 1 as [|a l Hl IH Ha]; simpl; [constructor|].
  destruct (f a); [|exact IH].
  constructor; [exact IH|].
  rewrite Forall_forall in *. intros x Hx. apply filter_In in Hx. now apply Ha.
Qed.

Lemma insert_In (k v : bytes) (l : list (bytes * bytes)) (e : bytes * bytes) :
  In e (memdb.insert k v l) -> e = (k, v) \/ In e l.
Proof.
  induction l as [|[k' v'] l IH]; simpl.
  - intros [E|[]]; auto.
  - destruct (Bytes.cmp k k'); simpl; intros [E|Hin]; auto.
    destruct (IH Hin); auto.
Qed.

Lemma insert_ascending (k v : bytes) (l : list (bytes * bytes)) :
  ascending l -> ascending (memdb.insert k v l).
Proof.
  induction 1 as [|[k' v'] l Hl IH Ha]; simpl.
  - repeat constructor.
  - rewrite Forall_forall in Ha.
    destruct (Bytes.cmp k k') eqn:C.
    + apply cmp_Eq in C. subst k'. constructor; [exact Hl|].
      rewrite Forall_forall. intros x Hx. exact (Ha x Hx).
    + constructor; [now constructor; [|rewrite Forall_forall]|].
      constructor; [exact C|].
      rewrite Forall_forall. intros x Hx. unfold key_lt. simpl.
      eapply cmp_Lt_trans; [exact C|]. exact (Ha x Hx).
    + constructor; [exact IH|].
      rewrite Forall_forall. intros x Hx.
      apply insert_In in Hx. destruct Hx as [->|Hx]; [|exact (Ha x Hx)].
      unfold key_lt. simpl. now rewrite cmp_antisym, C.
Qed.

Lemma Put_ascending (db : Database) (k v : bytes) :
  ascending (entries db) -> ascending (entries (memdb.Put db k v)).
Proof. apply insert_ascending. Qed.

Lemma Delete_ascending (db : Database) (k : bytes) :
  ascending (entries db) -> ascending (entries (memdb.Delete db k)).
Proof. apply filter_ascending. Qed.

Lemma ClearPrefix_ascending (db : Database) (prefix : bytes) :
  ascending (entries db) -> ascending (entries (memdb.ClearPrefix db prefix)).
Proof.
  unfold memdb.ClearPrefix.
  generalize (memdb.NewIteratorWithPrefix db prefix). intros l. revert db.
  induction l as [|e l IH]; intros db Hdb; simpl; [exact Hdb|].
  apply IH. now apply Delete_ascending.
Qed.

Lemma Get_Put_same (db : Database) (k v : bytes) :
  memdb.Get (memdb.Put db k v) k = Some v.
Proof.
  unfold memdb.Get, memdb.Put. simpl.
  induction (entries db) as [|[k' v'] l IH]; simpl.
  - unfold Bytes.Equal. now rewrite cmp_refl.
  - destruct (Bytes.cmp k k') eqn:C; simpl.
    + unfold Bytes.Equal. now rewrite cmp_refl.
    + unfold Bytes.Equal at 1. now rewrite cmp_refl.
    + unfold Bytes.Equal at 1. rewrite C. exact IH.
Qed.

Lemma Get_Delete_same (db : Database) (k : bytes) :
  memdb.Get (memdb.Delete db k) k = None.
Proof.
  unfold memdb.Get, memdb.Delete, memdb.remove. simpl.
  induction (entries db) as [|[k' v'] l IH]; simpl; [reflexivity|].
  destruct (Bytes.Equal k k') eqn:E; simpl; [exact IH|].
  now rewrite E.
Qed.

(** ** The registry reads without writing *)

Ltac monad := unfold bind, ret, fail, crash, lift, db_get, db_put, db_delete,
  db_iterate, db_clear_prefix in *.

Section Facts.

Context `{Collaborators}.

(** What the hash and the codec of the deployed chain guarantee: a 160-bit
    hash has 20 bytes, and a record of fixed-size fields always serialises. *)
Hypothesis ComputeHash160_len : forall r, length (ComputeHash160 r) = shortIDLen.
Hypothesis Marshal_total : forall i, Marshal i <> None.

Lemma GetPrefixInfo_spec (prefix : bytes) (db : Database) :
  GetPrefixInfo prefix db =
    (match memdb.Get db (PrefixInfoKey prefix) with
     | None => Ret None
     | Some v => match Unmarshal v with Some i => Ret (Some i) | None => Err ErrCodec end
     end, db).
Proof.
  unfold GetPrefixInfo; monad.
  destruct (memdb.Get db (PrefixInfoKey prefix)) as [v|]; [|reflexivity].
  now destruct (Unmarshal v).
Qed.

Lemma GetPrefixInfo_readonly (prefix : bytes) (db db' : Database) o :
  GetPrefixInfo prefix db = (o, db') -> db' = db.
Proof. rewrite GetPrefixInfo_spec. now inversion 1. Qed.

Lemma GetPrefixInfo_no_panic (prefix : bytes) (db db' : Database) p :
  GetPrefixInfo prefix db <> (Panicked p, db').
Proof.
  rewrite GetPrefixInfo_spec.
  destruct (memdb.Get db (PrefixInfoKey prefix)) as [v|]; [destruct (Unmarshal v)|];
    discriminate.
Qed.

Lemma GetValue_readonly (prefix k : bytes) (db db' : Database) o :
  GetValue prefix k db = (o, db') -> db' = db.
Proof.
  unfold GetValue, bind. rewrite GetPrefixInfo_spec.
  destruct (memdb.Get db (PrefixInfoKey prefix)) as [v|]; monad.
  - destruct (Unmarshal v); now inversion 1.
  - now inversion 1.
Qed.

Lemma GetValue_no_panic (prefix k : bytes) (db db' : Database) p :
  GetValue prefix k db <> (Panicked p, db').
Proof.
  unfold GetValue, bind. rewrite GetPrefixInfo_spec.
  destruct (memdb.Get db (PrefixInfoKey prefix)) as [v|]; monad;
    [destruct (Unmarshal v)|]; discriminate.
Qed.

(** The value writers either fail before writing or succeed. *)
Lemma PutPrefixKey_cases (prefix k v : bytes) (db : Database) :
  (exists e, PutPrefixKey prefix k v db = (Err e, db)) \/
  (exists db', PutPrefixKey prefix k v db = (Ret tt, db')).
Proof.
  unfold PutPrefixKey, bind. rewrite GetPrefixInfo_spec.
  destruct (memdb.Get db (PrefixInfoKey prefix)) as [b|]; monad.
  - destruct (Unmarshal b); eauto.
  - eauto.
Qed.

Lemma DeletePrefixKey_cases (prefix k : bytes) (db : Database) :
  (exists e, DeletePrefixKey prefix k db = (Err e, db)) \/
  (exists db', DeletePrefixKey prefix k db = (Ret tt, db')).
Proof.
  unfold DeletePrefixKey, bind. rewrite GetPrefixInfo_spec.
  destruct (memdb.Get db (PrefixInfoKey prefix)) as [b|]; monad.
  - destruct (Unmarshal b); eauto.
  - eauto.
Qed.

Lemma RawPrefix_ok (prefix : bytes) (t : Z) :
  exists r, RawPrefix prefix t = Ret r /\ length r = shortIDLen.
Proof.
  unfold RawPrefix, ToShortID. rewrite ComputeHash160_len, Nat.eqb_refl. eauto.
Qed.

Lemma fillRawPrefix_ok (prefix : bytes) (i : PrefixInfo.t) (db : Database) :
  exists i', fillRawPrefix prefix i db = (Ret i', db).
Proof.
  unfold fillRawPrefix.
  destruct (Bytes.Equal (PrefixInfo.RawPrefix i) ShortEmpty); monad; [|eauto].
  destruct (RawPrefix_ok prefix (PrefixInfo.Created i)) as (r & -> & _). eauto.
Qed.

Lemma PutPrefixInfo_succeeds (prefix : bytes) (i : PrefixInfo.t) (lastExpiry : Z)
  (db : Database) :
  exists db', PutPrefixInfo prefix i lastExpiry db = (Ret tt, db').
Proof.
  unfold PutPrefixInfo, bind at 1.
  destruct (fillRawPrefix_ok prefix i db) as (i' & ->).
  monad. destruct (0 <=? lastExpiry);
    (destruct (Marshal i') eqn:E; [eauto | now apply Marshal_total in E]).
Qed.

(** *** Prefix registry: re-indexing on [PutPrefixInfo] *)

Lemma fillRawPrefix_registered (prefix : bytes) (i : PrefixInfo.t) (db : Database) :
  fillRawPrefix prefix i db = (Ret (registered prefix i), db).
Proof.
  unfold fillRawPrefix, registered.
  destruct (Bytes.Equal (PrefixInfo.RawPrefix i) ShortEmpty); [|reflexivity].
  monad. unfold RawPrefix, ToShortID.
  now rewrite ComputeHash160_len, Nat.eqb_refl.
Qed.

(** C5. [PutPrefixInfo prefix info previousExpiry] with a previous expiry
    ([previousExpiry >= 0]) issues exactly three writes, in this order: the
    delete of the stale expiry-schedule key [(previousExpiry, info.RawPrefix)],
    the put of the new expiry-schedule key [(info.Expiry, info.RawPrefix)]
    holding the prefix text, and the put of the serialised record under the
    prefix; with no previous expiry ([previousExpiry < 0]) it issues the two
    puts only, and no delete. *)
Theorem PutPrefixInfo_reindex (prefix : bytes) (info : PrefixInfo.t)
  (previousExpiry : Z) (db : Database) :
  let info' := registered prefix info in
  let stale := PrefixExpiryKey previousExpiry (PrefixInfo.RawPrefix info') in
  let fresh := PrefixExpiryKey (PrefixInfo.Expiry info') (PrefixInfo.RawPrefix info') in
  exists b, Marshal info' = Some b /\
    (0 <= previousExpiry ->
       PutPrefixInfo prefix info previousExpiry db =
         (Ret tt,
          memdb.Put (memdb.Put (memdb.Delete db stale) fresh prefix) (PrefixInfoKey prefix) b)
       /\ journal (snd (PutPrefixInfo prefix info previousExpiry db)) =
            journal db ++ [OpDelete stale; OpPut fresh prefix; OpPut (PrefixInfoKey prefix) b]) /\
    (previousExpiry < 0 ->
       PutPrefixInfo prefix info previousExpiry db =
         (Ret tt, memdb.Put (memdb.Put db fresh prefix) (PrefixInfoKey prefix) b)
       /\ journal (snd (PutPrefixInfo prefix info previousExpiry db)) =
            journal db ++ [OpPut fresh prefix; OpPut (PrefixInfoKey prefix) b]).
Proof.
  intros info' stale fresh.
  destruct (Marshal info') as [b|] eqn:Hb; [|now apply Marshal_total in Hb].
  exists b; split; [reflexivity|].
  assert (Hrun : forall c, (0 <=? previousExpiry) = c ->
            PutPrefixInfo prefix info previousExpiry db =
              (Ret tt,
               memdb.Put
                 (memdb.Put (if c then memdb.Delete db stale else db) fresh prefix)
                 (PrefixInfoKey prefix) b)).
  { intros c Hc. unfold PutPrefixInfo, bind at 1.
    rewrite fillRawPrefix_registered. fold info'. monad.
    rewrite Hc. fold stale fresh. destruct c; rewrite Hb; reflexivity. }
  split; intros Hp.
  - rewrite (Hrun true) by (apply Z.leb_le; lia). split; [reflexivity|].
    simpl. now rewrite <- !app_assoc.
  - rewrite (Hrun false) by (apply Z.leb_gt; lia). split; [reflexivity|].
    simpl. now rewrite <- !app_assoc.
Qed.

(** *** Set transaction *)

Lemma lease_update_no_error (prefix : bytes) (i : PrefixInfo.t)
  (blockTime timeRemaining units lastExpiry : Z) (db db' : Database) (e : error) :
  (newTimeRemaining <- div64 timeRemaining units ;;
   PutPrefixInfo prefix
     (setLease i blockTime (add64 blockTime newTimeRemaining) units) lastExpiry) db
  <> (Err e, db').
Proof.
  unfold div64, bind. destruct (units =? 0); monad; [discriminate|].
  destruct (PutPrefixInfo_succeeds prefix
              (setLease i blockTime
                 (add64 blockTime (wrap64 (Z.quot timeRemaining units))) units)
              lastExpiry db) as (d & ->).
  discriminate.
Qed.

Lemma updatePrefix_error_unchanged (s : SetTx.t) (blockTime : Z) (i : PrefixInfo.t)
  (db db' : Database) (e : error) :
  updatePrefix s blockTime i db = (Err e, db') -> db' = db.
Proof.
  unfold updatePrefix. unfold bind at 1.
  destruct (GetValue (SetTx.Prefix s) (SetTx.Key s) db) as [o d] eqn:G.
  apply GetValue_readonly in G as Hd. subst d.
  destruct o as [r|e0|p]; try (now inversion 1).
  unfold bind at 1.
  destruct (Bytes.len (SetTx.Value s) =? 0).
  - destruct r as [v|]; [|now inversion 1].
    unfold bind at 1.
    destruct (DeletePrefixKey_cases (SetTx.Prefix s) (SetTx.Key s) db)
      as [(e1 & ->)|(d1 & ->)]; [now inversion 1|].
    unfold ret at 1. intros E. now apply lease_update_no_error in E.
  - unfold bind at 1.
    destruct (PutPrefixKey_cases (SetTx.Prefix s) (SetTx.Key s) (SetTx.Value s) db)
      as [(e1 & ->)|(d1 & ->)]; [now inversion 1|].
    unfold ret at 1. intros E. now apply lease_update_no_error in E.
Qed.

(** With a hash of 20 bytes and a codec that always serialises, no error
    is left to [PutPrefixInfo], and every error of [Execute] is returned
    before the first write. *)
Lemma Execute_error_unchanged (s : SetTx.t) (blockTime : Z)
  (db db' : Database) (e : error) :
  Execute s blockTime db = (Err e, db') -> db' = db.
Proof.
  unfold Execute.
  destruct (CheckKey (SetTx.Key s)); [now inversion 1|].
  destruct (Bytes.len (SetTx.Value s) >? MaxValueLength); [now inversion 1|].
  unfold bind. rewrite GetPrefixInfo_spec.
  destruct (memdb.Get db (PrefixInfoKey (SetTx.Prefix s))) as [v|]; [|now inversion 1].
  destruct (Unmarshal v) as [i|]; [|now inversion 1].
  destruct (negb (Bytes.Equal (PrefixInfo.Owner i) (SetTx.Sender s))); [now inversion 1|].
  destruct (PrefixInfo.Expiry i <? blockTime); [now inversion 1|].
  apply updatePrefix_error_unchanged.
Qed.

(** The errors [PutPrefixInfo] can return: the raw prefix could not be
    derived, or the record could not be serialised. *)
Lemma PutPrefixInfo_error (prefix : bytes) (i : PrefixInfo.t) (lastExpiry : Z)
  (db db' : Database) (e : error) :
  PutPrefixInfo prefix i lastExpiry db = (Err e, db') ->
  e = ErrCodec \/ e = ErrShortIDLength.
Proof.
  unfold PutPrefixInfo, fillRawPrefix, RawPrefix, ToShortID.
  destruct (Bytes.Equal (PrefixInfo.RawPrefix i) ShortEmpty).
  - destruct (Nat.eqb (length _) shortIDLen); monad.
    + destruct (0 <=? lastExpiry);
        (destruct (Marshal _); [discriminate|inversion 1; now left]).
    + inversion 1. now right.
  - monad.
    destruct (0 <=? lastExpiry);
      (destruct (Marshal i); [discriminate|inversion 1; now left]).
Qed.

Lemma lease_update_error (prefix : bytes) (i : PrefixInfo.t)
  (blockTime timeRemaining units lastExpiry : Z) (db db' : Database) (e : error) :
  (newTimeRemaining <- div64 timeRemaining units ;;
   PutPrefixInfo prefix
     (setLease i blockTime (add64 blockTime newTimeRemaining) units) lastExpiry) db
  = (Err e, db') ->
  e = ErrCodec \/ e = ErrShortIDLength.
Proof.
  unfold div64, bind at 1. destruct (units =? 0); unfold crash, ret; [discriminate|].
  apply PutPrefixInfo_error.
Qed.

(** An error of [updatePrefix] that is not one of [PutPrefixInfo] is
    returned before the first write. *)
Lemma updatePrefix_check_error_unchanged (s : SetTx.t) (blockTime : Z)
  (i : PrefixInfo.t) (db db' : Database) (e : error) :
  updatePrefix s blockTime i db = (Err e, db') ->
  e <> ErrCodec -> e <> ErrShortIDLength ->
  db' = db.
Proof.
  intros Hrun Hc Hs. revert Hrun.
  unfold updatePrefix. unfold bind at 1.
  destruct (GetValue (SetTx.Prefix s) (SetTx.Key s) db) as [o d] eqn:G.
  apply GetValue_readonly in G as Hd. subst d.
  destruct o as [r|e0|p]; try (now inversion 1).
  unfold bind at 1.
  destruct (Bytes.len (SetTx.Value s) =? 0).
  - destruct r as [v|]; [|now inversion 1].
    unfold bind at 1.
    destruct (DeletePrefixKey_cases (SetTx.Prefix s) (SetTx.Key s) db)
      as [(e1 & ->)|(d1 & ->)]; [now inversion 1|].
    unfold ret at 1. intros E. apply lease_update_error in E. tauto.
  - unfold bind at 1.
    destruct (PutPrefixKey_cases (SetTx.Prefix s) (SetTx.Key s) (SetTx.Value s) db)
      as [(e1 & ->)|(d1 & ->)]; [now inversion 1|].
    unfold ret at 1. intros E. apply lease_update_error in E. tauto.
Qed.

(** C6, as amended. Whenever [Execute] of a Set/Delete transaction returns
    an error of its own checks - the key-format error, [ErrValueTooBig],
    [ErrPrefixMissing], [ErrUnauthorized], [ErrPrefixExpired] or
    [ErrKeyMissing]: any error but the two that [PutPrefixInfo] passes
    through from the codec and the raw-prefix hash - the database is the
    one it was called on: no record of the namespace has changed and no
    write was issued.  Every check precedes the first write. *)
Theorem Execute_check_error_unchanged (s : SetTx.t) (blockTime : Z)
  (db db' : Database) (e : error) :
  Execute s blockTime db = (Err e, db') ->
  e <> ErrCodec -> e <> ErrShortIDLength ->
  db' = db.
Proof.
  unfold Execute.
  destruct (CheckKey (SetTx.Key s)); [now inversion 1|].
  destruct (Bytes.len (SetTx.Value s) >? MaxValueLength); [now inversion 1|].
  unfold bind. rewrite GetPrefixInfo_spec.
  destruct (memdb.Get db (PrefixInfoKey (SetTx.Prefix s))) as [v|]; [|now inversion 1].
  destruct (Unmarshal v) as [i|]; [|now inversion 1].
  destruct (negb (Bytes.Equal (PrefixInfo.Owner i) (SetTx.Sender s))); [now inversion 1|].
  destruct (PrefixInfo.Expiry i <? blockTime); [now inversion 1|].
  apply updatePrefix_check_error_unchanged.
Qed.

Lemma Execute_value_too_big (s : SetTx.t) (blockTime : Z) (db : Database) :
  CheckKey (SetTx.Key s) = None ->
  MaxValueLength < Bytes.len (SetTx.Value s) ->
  Execute s blockTime db = (Err ErrValueTooBig, db).
Proof.
  intros Hk Hv. unfold Execute. rewrite Hk.
  now replace (Bytes.len (SetTx.Value s) >? MaxValueLength) with true
    by (symmetry; apply Z.gtb_lt; lia).
Qed.

Lemma Execute_bad_key (s : SetTx.t) (blockTime : Z) (db : Database) (e : error) :
  CheckKey (SetTx.Key s) = Some e ->
  Execute s blockTime db = (Err e, db).
Proof. intros Hk. unfold Execute. now rewrite Hk. Qed.

(** C7, as amended. A Set transaction whose key passes the key-format check
    and whose value is not longer than the maximum, sent by anyone but the
    owner of an existing prefix, fails with [ErrUnauthorized] and leaves the
    database as it was, whatever the key, the value and the block time. *)
Theorem Execute_unauthorized (s : SetTx.t) (blockTime : Z) (db : Database)
  (i : PrefixInfo.t) :
  CheckKey (SetTx.Key s) = None ->
  Bytes.len (SetTx.Value s) <= MaxValueLength ->
  GetPrefixInfo (SetTx.Prefix s) db = (Ret (Some i), db) ->
  SetTx.Sender s <> PrefixInfo.Owner i ->
  Execute s blockTime db = (Err ErrUnauthorized, db).
Proof.
  intros Hk Hv Hi Ho. unfold Execute. rewrite Hk.
  replace (Bytes.len (SetTx.Value s) >? MaxValueLength) with false
    by (symmetry; rewrite Z.gtb_ltb; apply Z.ltb_ge; lia).
  unfold bind. rewrite Hi.
  replace (Bytes.Equal (PrefixInfo.Owner i) (SetTx.Sender s)) with false
    by (symmetry; apply Equal_false_iff; congruence).
  reflexivity.
Qed.

(** C8, as amended. On a prefix with no PrefixInfo record, [GetValue]
    reports the key as absent without an error, while [PutPrefixKey] and
    [DeletePrefixKey] fail with [ErrPrefixMissing]; none of the three writes. *)
Theorem value_access_on_missing_prefix (prefix k v : bytes) (db : Database) :
  GetPrefixInfo prefix db = (Ret None, db) ->
  GetValue prefix k db = (Ret None, db) /\
  PutPrefixKey prefix k v db = (Err ErrPrefixMissing, db) /\
  DeletePrefixKey prefix k db = (Err ErrPrefixMissing, db).
Proof.
  intros Hi. unfold GetValue, PutPrefixKey, DeletePrefixKey, bind.
  rewrite Hi. repeat split.
Qed.

(** A delete of the only value of a namespace reaches the division with a
    zero divisor. *)
Lemma updatePrefix_last_delete_panics (s : SetTx.t) (blockTime : Z)
  (i stored : PrefixInfo.t) (v : bytes) (db : Database) :
  SetTx.Value s = [] ->
  GetPrefixInfo (SetTx.Prefix s) db = (Ret (Some stored), db) ->
  memdb.Get db (PrefixValueKey (PrefixInfo.RawPrefix stored) (SetTx.Key s)) = Some v ->
  PrefixInfo.Units i = Units v ->
  fst (updatePrefix s blockTime i db) = Panicked DivideByZero.
Proof.
  intros Hv Hi Hg Hu.
  unfold updatePrefix, GetValue, DeletePrefixKey, bind. rewrite Hi.
  monad. rewrite Hg, Hv. simpl.
  rewrite Hi. rewrite Hu. unfold div64, sub64.
  rewrite Z.sub_diag. reflexivity.
Qed.

(** *** Pruner: one call prunes at most [limit] namespaces *)

(** The counter of the loop goes up by one per pruned namespace and never
    passes [limit]. *)
Lemma PruneNext_loop_bound (limit : Z) (startKey endKey : bytes) :
  forall (cursor : list (bytes * bytes)) (removals n : Z) (db db' : Database),
    PruneNext_loop limit startKey endKey cursor removals db = (Ret n, db') ->
    removals <= n <= Z.max removals limit /\
    n - removals <= Z.of_nat (length cursor).
Proof.
  induction cursor as [|[curKey value] rest IH]; intros removals n db db' Hrun.
  - inversion Hrun; subst. simpl. lia.
  - simpl PruneNext_loop in Hrun.
    destruct (removals <? limit) eqn:Hlt; simpl in Hrun;
      [|inversion Hrun; subst; simpl length; lia].
    apply Z.ltb_lt in Hlt.
    replace (Bytes.Compare startKey curKey <? -1) with false in Hrun
      by (symmetry; apply Z.ltb_ge; apply Compare_range).
    destruct (Bytes.Compare curKey endKey >? 0);
      [inversion Hrun; subst; simpl length; lia|].
    monad. destruct (extractSpecificTimeKey curKey) as [tr|e|p]; try discriminate.
    apply IH in Hrun. simpl length. lia.
Qed.

(** *** Range reader *)

Lemma applyOpts_app (op : Op) (l1 l2 : list OpOption) :
  applyOpts op (l1 ++ l2) = applyOpts (applyOpts op l1) l2.
Proof. unfold applyOpts. apply fold_left_app. Qed.

Lemma applyOpts_keepsLimit (post : list OpOption) :
  Forall keepsLimit post ->
  forall op, rangeLimit (applyOpts op post) = rangeLimit op.
Proof.
  induction 1 as [|opt post Hopt _ IH]; intros op; [reflexivity|].
  simpl. rewrite IH. apply Hopt.
Qed.

Lemma WithPrefix_keepsLimit : keepsLimit WithPrefix.
Proof. intros op. reflexivity. Qed.

Lemma WithRangeEnd_keepsLimit (e : bytes) : keepsLimit (WithRangeEnd e).
Proof. intros op. reflexivity. Qed.

Lemma applyOpts_limit (op : Op) (pre post : list OpOption) (n : N) :
  Forall keepsLimit post ->
  rangeLimit (applyOpts op (pre ++ WithRangeLimit n :: post)) = n.
Proof.
  intros Hpost. rewrite applyOpts_app. simpl.
  now rewrite applyOpts_keepsLimit.
Qed.

(** The scan appends to [kvs]; what it appends are stored pairs of the
    cursor, selected by the bounds, with the header cut off their keys; a
    positive limit that [kvs] respects is respected by the result. *)
Lemma Range_loop_spec (limit : N) (startKey endKey : bytes) :
  forall (cursor : list (bytes * bytes)) (kvs : list KeyValue),
    scan_safe startKey endKey cursor ->
    exists added,
      Range_loop limit startKey endKey cursor kvs = Ret (kvs ++ added) /\
      Forall (fun kv => exists k,
                In (k, Value kv) cursor /\
                (valueKeyHeaderLen <= length k)%nat /\
                Key kv = skipn valueKeyHeaderLen k /\
                selected startKey endKey k) added /\
      ((0 < limit)%N -> (N.of_nat (length kvs) <= limit)%N ->
       (N.of_nat (length (kvs ++ added)) <= limit)%N).
Proof.
  induction cursor as [|[curKey value] rest IH]; intros kvs Hsafe.
  - exists []. rewrite app_nil_r. simpl. auto.
  - destruct Hsafe as [Hlong Hrest].
    set (P := fun (out : outcome (list KeyValue)) => exists added,
             out = Ret (kvs ++ added) /\
             Forall (fun kv => exists k,
                       In (k, Value kv) ((curKey, value) :: rest) /\
                       (valueKeyHeaderLen <= length k)%nat /\
                       Key kv = skipn valueKeyHeaderLen k /\
                       selected startKey endKey k) added /\
             ((0 < limit)%N -> (N.of_nat (length kvs) <= limit)%N ->
              (N.of_nat (length (kvs ++ added)) <= limit)%N)).
    change (P (Range_loop limit startKey endKey ((curKey, value) :: rest) kvs)).
    assert (Hstop : P (Ret kvs))
      by (exists []; rewrite app_nil_r; auto).
    simpl Range_loop.
    destruct ((0 <? limit)%N && (N.of_nat (length kvs) =? limit)%N) eqn:Hfull;
      [exact Hstop|].
    replace (length curKey <? valueKeyHeaderLen)%nat with false
      by (symmetry; now apply Nat.ltb_ge).
    assert (Hadd : selected startKey endKey curKey ->
              P (Range_loop limit startKey endKey rest
                   (kvs ++ [mkKeyValue (skipn valueKeyHeaderLen curKey) value]))).
    { intros Hsel.
      destruct (IH (kvs ++ [mkKeyValue (skipn valueKeyHeaderLen curKey) value])
                  (Hrest Hsel)) as (added & E & F & B).
      exists (mkKeyValue (skipn valueKeyHeaderLen curKey) value :: added).
      replace (kvs ++ mkKeyValue (skipn valueKeyHeaderLen curKey) value :: added)
        with ((kvs ++ [mkKeyValue (skipn valueKeyHeaderLen curKey) value]) ++ added)
        by (now rewrite <- app_assoc).
      repeat split; auto.
      - constructor.
        + exists curKey. simpl. repeat split; auto.
        + eapply Forall_impl; [|exact F].
          intros kv (k & Hin & Hl & Hk & Hs). exists k. repeat split; auto. now right.
      - intros Hpos Hle. apply B; [exact Hpos|].
        rewrite length_app. simpl.
        apply andb_false_iff in Hfull. destruct Hfull as [Hf|Hf].
        + apply N.ltb_ge in Hf. lia.
        + apply N.eqb_neq in Hf. lia. }
    destruct (Bytes.Compare startKey curKey =? 0) eqn:Hc0.
    { apply Hadd. left. now apply Z.eqb_eq. }
    replace (Bytes.Compare startKey curKey <? -1) with false
      by (symmetry; apply Z.ltb_ge; apply Compare_range).
    destruct (Bytes.len endKey =? 0) eqn:He0; [exact Hstop|].
    destruct (Bytes.Compare curKey endKey >=? 0) eqn:Hce; [exact Hstop|].
    apply Hadd. right. split.
    + apply Z.eqb_neq in He0. unfold Bytes.len in *. lia.
    + rewrite Z.geb_leb in Hce. apply Z.leb_gt in Hce. lia.
Qed.

Lemma NewIteratorWithStart_In (db : Database) (start k v : bytes) :
  In (k, v) (memdb.NewIteratorWithStart db start) <->
  In (k, v) (entries db) /\ 0 <= Bytes.Compare k start.
Proof.
  unfold memdb.NewIteratorWithStart. rewrite filter_In. simpl.
  now rewrite Z.leb_le.
Qed.

Lemma NewIteratorWithStart_ascending (db : Database) (start : bytes) :
  ascending (entries db) -> ascending (memdb.NewIteratorWithStart db start).
Proof. apply filter_ascending. Qed.

(** In an ascending cursor where every short key comes after a long key
    at which the scan stops, the scan is safe. *)
Lemma scan_safe_guarded (startKey endKey : bytes) :
  forall cursor : list (bytes * bytes),
    ascending cursor ->
    (forall k v, In (k, v) cursor ->
       (valueKeyHeaderLen <= length k)%nat \/
       exists k' v', In (k', v') cursor /\ Bytes.cmp k' k = Lt /\
                     (valueKeyHeaderLen <= length k')%nat /\
                     ~ selected startKey endKey k') ->
    scan_safe startKey endKey cursor.
Proof.
  induction cursor as [|[k0 v0] rest IH]; intros Hasc Hguard; [exact I|].
  apply StronglySorted_inv in Hasc. destruct Hasc as [Hrest Hmin].
  rewrite Forall_forall in Hmin.
  split.
  - destruct (Hguard k0 v0 (or_introl eq_refl)) as [Hl|(k' & v' & Hin & Hlt & _)];
      [exact Hl|].
    exfalso. destruct Hin as [E|Hin].
    + inversion E; subst. rewrite cmp_refl in Hlt. discriminate.
    + specialize (Hmin _ Hin). unfold key_lt in Hmin. simpl in Hmin.
      rewrite cmp_antisym, Hmin in Hlt. discriminate.
  - intros Hsel. apply IH; [exact Hrest|].
    intros k v Hin.
    destruct (Hguard k v (or_intror Hin)) as [Hl|(k' & v' & Hin' & Hlt & Hl & Hns)];
      [now left|].
    right. exists k', v'. repeat split; auto.
    destruct Hin' as [E|Hin']; [|exact Hin'].
    inversion E; subst. now elim Hns.
Qed.

(** C9. On an existing prefix, [Range] returns a non-nil list: every pair
    in it is a stored pair selected by the scan bounds, with the
    [[keyPrefix] + [delimiter] + [rawPrefix] + [delimiter]] header cut off
    its key; the list is empty (and still non-nil) when no stored key is
    selected; and when [WithRangeLimit n] is given with [n > 0] (and not
    overridden by a later option) the list has at most [n] pairs.  The store
    is ascending, and a key shorter than the header, if any lies at or after
    the start key, comes after a full-length key at which the scan stops (as
    the pointer to the last accepted block comes after the expiry-schedule
    entry of the prefix). *)
Theorem Range_result (prefix key' : bytes) (opts : list OpOption) (db : Database)
  (i : PrefixInfo.t) :
  let op := applyOpts (mkOp (PrefixValueKey (PrefixInfo.RawPrefix i) key') [] 0%N) opts in
  let startKey := key op in
  let endKey := Range_endKey (PrefixInfo.RawPrefix i) op in
  GetPrefixInfo prefix db = (Ret (Some i), db) ->
  ascending (entries db) ->
  (forall k v, In (k, v) (entries db) -> 0 <= Bytes.Compare k startKey ->
     (valueKeyHeaderLen <= length k)%nat \/
     exists k' v', In (k', v') (entries db) /\ 0 <= Bytes.Compare k' startKey /\
                   Bytes.cmp k' k = Lt /\ (valueKeyHeaderLen <= length k')%nat /\
                   ~ selected startKey endKey k') ->
  exists kvs,
    Range prefix key' opts db = (Ret (Some kvs), db) /\
    Forall (fun kv => exists header,
              length header = valueKeyHeaderLen /\
              In (header ++ Key kv, Value kv) (entries db) /\
              0 <= Bytes.Compare (header ++ Key kv) startKey /\
              selected startKey endKey (header ++ Key kv)) kvs /\
    ((forall k v, In (k, v) (entries db) -> 0 <= Bytes.Compare k startKey ->
                  ~ selected startKey endKey k) -> kvs = []) /\
    (forall pre n post,
        opts = pre ++ WithRangeLimit n :: post -> Forall keepsLimit post ->
        (0 < n)%N -> (N.of_nat (length kvs) <= n)%N).
Proof.
  intros op startKey endKey Hi Hasc Hguard.
  destruct (Range_loop_spec (rangeLimit op) startKey endKey
              (memdb.NewIteratorWithStart db startKey) [])
    as (kvs & Hrun & Hsel & Hlim).
  { apply scan_safe_guarded; [now apply NewIteratorWithStart_ascending|].
    intros k v Hin. apply NewIteratorWithStart_In in Hin. destruct Hin as [Hin Hge].
    destruct (Hguard k v Hin Hge) as [Hl|(k' & v' & Hin' & Hge' & Hlt & Hl & Hns)];
      [now left|].
    right. exists k', v'. repeat split; auto.
    now apply NewIteratorWithStart_In. }
  simpl in Hrun, Hlim.
  assert (Hstored : Forall (fun kv => exists header,
              length header = valueKeyHeaderLen /\
              In (header ++ Key kv, Value kv) (entries db) /\
              0 <= Bytes.Compare (header ++ Key kv) startKey /\
              selected startKey endKey (header ++ Key kv)) kvs).
  { eapply Forall_impl; [|exact Hsel].
    intros kv (k & Hin & Hl & Hk & Hs).
    apply NewIteratorWithStart_In in Hin. destruct Hin as [Hin Hge].
    exists (firstn valueKeyHeaderLen k).
    rewrite Hk, firstn_skipn. repeat split; auto.
    now apply firstn_length_le. }
  exists kvs. repeat split.
  - unfold Range, bind. rewrite Hi. monad.
    fold op. fold startKey. fold endKey. now rewrite Hrun.
  - exact Hstored.
  - intros Hnone. destruct kvs as [|kv kvs']; [reflexivity|].
    inversion Hstored as [|? ? (header & _ & Hin & Hge & Hs) _]; subst.
    now elim (Hnone _ _ Hin Hge).
  - intros pre n post Hopts Hpost Hn.
    assert (Hl : rangeLimit op = n)
      by (unfold op; rewrite Hopts; now apply applyOpts_limit).
    rewrite Hl in Hlim. apply Hlim; [exact Hn|]. simpl. lia.
Qed.

(** *** Key codec: timestamps are written little-endian *)

Lemma PutUint64_255 :
  LittleEndian.PutUint64 (LittleEndian.to_uint64 255)
  = [xff; x00; x00; x00; x00; x00; x00; x00].
Proof. reflexivity. Qed.

Lemma PutUint64_256 :
  LittleEndian.PutUint64 (LittleEndian.to_uint64 256)
  = [x00; x01; x00; x00; x00; x00; x00; x00].
Proof. reflexivity. Qed.

(** C2. The time-keyed encodings do not preserve order: for timestamps
    [255 <= 256], with the same tag and raw prefix, the key of 255 compares
    greater than the key of 256, since [specificTimeKey] writes the
    timestamp with [binary.LittleEndian]. *)
Theorem specificTimeKey_order_reversed (p : byte) (rprefix : ShortID) :
  Bytes.Compare (specificTimeKey p 255 rprefix) (specificTimeKey p 256 rprefix) = 1.
Proof.
  unfold specificTimeKey, Bytes.Compare.
  rewrite PutUint64_255, PutUint64_256. simpl.
  now rewrite !N.compare_refl.
Qed.

End Facts.

(** ** The model on concrete stores *)

Lemma Sample_ComputeHash160_len (r : bytes) :
  length (Sample.ComputeHash160 r) = shortIDLen.
Proof.
  unfold Sample.ComputeHash160. apply firstn_length_le.
  rewrite length_app, repeat_length. lia.
Qed.

Lemma Sample_Marshal_total (i : PrefixInfo.t) : Sample.Marshal i <> None.
Proof. discriminate. Qed.

(** C1. A delete of the last remaining key of a claimed, unexpired prefix
    passes every check of [Execute] and then divides by the new [Units],
    which is zero: [foo] is claimed at time 1, [hello] is set at time 2 and
    deleted at time 2.  The run panics after the value record was deleted. *)
Theorem Execute_delete_last_key_divides_by_zero :
  Sample.GetValue Sample.foo Sample.hello Sample.db_hello
  = (Ret (Some Sample.world), Sample.db_hello) /\
  Sample.Execute Sample.delete_hello 2 Sample.db_hello
  = (Panicked DivideByZero,
     memdb.Delete Sample.db_hello
       (Sample.PrefixValueKey (PrefixInfo.RawPrefix Sample.info_hello) Sample.hello)).
Proof. vm_compute. split; reflexivity. Qed.

(** C3. [ExpireNext 0 256] leaves an expiry-schedule entry of timestamp 255
    in place, with its PrefixInfo record and without a pruning entry, and it
    demotes an entry of timestamp 65536, outside the range. *)
Theorem ExpireNext_misses_entry_in_range :
  Sample.ExpireNext 0 256 Sample.db_expiring_255 = (Ret tt, Sample.db_expiring_255) /\
  memdb.Has Sample.db_expiring_255
    (Sample.PrefixExpiryKey 255 (PrefixInfo.RawPrefix (registered (H := Sample.env) Sample.foo
                                                         (Sample.claimed Sample.alice 195))))
  = true /\
  map fst (entries (Sample.after (Sample.ExpireNext 0 256) Sample.db_expiring_65536))
  = [Sample.PrefixPruningKey 65536
       (PrefixInfo.RawPrefix (registered (H := Sample.env) Sample.foo
                                (Sample.claimed Sample.alice 65476)))].
Proof. vm_compute. repeat split. Qed.

(** C4. On a store with three demoted namespaces, [PruneNext 100] prunes
    the three (its counter ends at 3, every pruning entry and value record
    is gone) and returns nothing but the absence of an error. *)
Theorem PruneNext_returns_no_count :
  Sample.PruneNext 100 Sample.db_three_expired
  = (Ret tt, Sample.after (Sample.PruneNext 100) Sample.db_three_expired) /\
  entries (Sample.after (Sample.PruneNext 100) Sample.db_three_expired) = [] /\
  fst (PruneNext_loop (H := Sample.env) 100
         (Sample.RangeTimeKey pruningPrefix 0) (Sample.RangeTimeKey pruningPrefix MaxInt64)
         (memdb.NewIteratorWithStart Sample.db_three_expired
            (Sample.RangeTimeKey pruningPrefix 0))
         0 Sample.db_three_expired)
  = Ret 3.
Proof. vm_compute. repeat split. Qed.

Lemma PutPrefixInfo_reindex_witness :
  exists b,
    journal (snd (Sample.PutPrefixInfo Sample.foo Sample.info_claimed 61 Sample.db_claimed))
    = journal Sample.db_claimed
      ++ [OpDelete (Sample.PrefixExpiryKey 61 (PrefixInfo.RawPrefix Sample.info_claimed));
          OpPut (Sample.PrefixExpiryKey 61 (PrefixInfo.RawPrefix Sample.info_claimed)) Sample.foo;
          OpPut (Sample.PrefixInfoKey Sample.foo) b].
Proof.
  destruct (@PutPrefixInfo_reindex Sample.env Sample_ComputeHash160_len
              Sample_Marshal_total Sample.foo Sample.info_claimed 61 Sample.db_claimed)
    as (b & _ & Hprev & _).
  exists b. apply Hprev. lia.
Defined.

(** C6, as stated, fails: when the codec cannot serialise the new record,
    [Execute] of the owner's Set returns [ErrCodec] after the value was
    written and the expiry schedule re-indexed; the key that held nothing
    holds the value, and the writes are in the journal. *)
Lemma Execute_codec_error_after_write :
  fst (Execute Sample.set_hello 2 Sample.db_claimed (H := Sample.env_codec_down))
  = Err ErrCodec /\
  memdb.Get Sample.db_claimed
    (Sample.PrefixValueKey (PrefixInfo.RawPrefix Sample.info_claimed) Sample.hello)
  = None /\
  memdb.Get
    (snd (Execute Sample.set_hello 2 Sample.db_claimed (H := Sample.env_codec_down)))
    (Sample.PrefixValueKey (PrefixInfo.RawPrefix Sample.info_claimed) Sample.hello)
  = Some Sample.world /\
  snd (Execute Sample.set_hello 2 Sample.db_claimed (H := Sample.env_codec_down))
  <> Sample.db_claimed.
Proof. vm_compute. repeat split. discriminate. Qed.

Lemma Execute_check_error_unchanged_witness :
  Sample.Execute Sample.delete_hello 2 Sample.db_claimed
  = (Err ErrKeyMissing, Sample.db_claimed) /\
  Sample.db_claimed = Sample.db_claimed.
Proof.
  assert (E : Sample.Execute Sample.delete_hello 2 Sample.db_claimed
              = (Err ErrKeyMissing, Sample.db_claimed)) by (vm_compute; reflexivity).
  split; [exact E|].
  apply (@Execute_check_error_unchanged Sample.env Sample.delete_hello 2
           Sample.db_claimed Sample.db_claimed ErrKeyMissing E).
  - discriminate.
  - discriminate.
Defined.

(** C7, as stated, fails: [bob] does not own [foo], and his Set of a value
    of 257 bytes fails with [ErrValueTooBig], not with [ErrUnauthorized]. *)
Lemma Execute_oversized_value_by_stranger :
  Sample.GetPrefixInfo Sample.foo Sample.db_claimed
  = (Ret (Some Sample.info_claimed), Sample.db_claimed) /\
  SetTx.Sender Sample.bob_sets_oversized <> PrefixInfo.Owner Sample.info_claimed /\
  fst (Sample.Execute Sample.bob_sets_oversized 2 Sample.db_claimed) = Err ErrValueTooBig /\
  fst (Sample.Execute Sample.bob_sets_oversized 2 Sample.db_claimed) <> Err ErrUnauthorized.
Proof. vm_compute. repeat split; discriminate. Qed.

Lemma Execute_unauthorized_witness :
  Sample.Execute Sample.bob_sets_hello 2 Sample.db_claimed
  = (Err ErrUnauthorized, Sample.db_claimed).
Proof.
  apply (@Execute_unauthorized Sample.env Sample.bob_sets_hello 2 Sample.db_claimed
           Sample.info_claimed).
  - reflexivity.
  - vm_compute. discriminate.
  - vm_compute. reflexivity.
  - vm_compute. discriminate.
Defined.

(** C8, as stated, fails: on the empty store, where [foo] has no PrefixInfo
    record, [GetValue] returns "absent" and no error. *)
Lemma GetValue_missing_prefix_no_error :
  Sample.GetPrefixInfo Sample.foo memdb.New = (Ret None, memdb.New) /\
  Sample.GetValue Sample.foo Sample.hello memdb.New = (Ret None, memdb.New) /\
  fst (Sample.GetValue Sample.foo Sample.hello memdb.New) <> Err ErrPrefixMissing.
Proof. vm_compute. repeat split; discriminate. Qed.

Lemma value_access_on_missing_prefix_witness :
  Sample.GetValue Sample.foo Sample.hello memdb.New = (Ret None, memdb.New) /\
  Sample.PutPrefixKey Sample.foo Sample.hello Sample.world memdb.New
  = (Err ErrPrefixMissing, memdb.New) /\
  Sample.DeletePrefixKey Sample.foo Sample.hello memdb.New
  = (Err ErrPrefixMissing, memdb.New).
Proof.
  apply (@value_access_on_missing_prefix Sample.env Sample.foo Sample.hello
           Sample.world memdb.New).
  reflexivity.
Defined.

Lemma Range_result_witness :
  exists kvs,
    Sample.Range Sample.foo [] [Sample.WithPrefix; WithRangeLimit 1] Sample.db_hello_accepted
    = (Ret (Some kvs), Sample.db_hello_accepted) /\
    (N.of_nat (length kvs) <= 1)%N.
Proof.
  destruct (@Range_result Sample.env Sample.foo [] [Sample.WithPrefix; WithRangeLimit 1]
              Sample.db_hello_accepted Sample.info_hello)
    as (kvs & Hrun & _ & _ & Hlim).
  - vm_compute. reflexivity.
  - unfold ascending, key_lt. vm_compute. repeat constructor.
  - intros k v Hin Hge. vm_compute in Hin.
    destruct Hin as [E|[E|[E|[E|[]]]]]; inversion E; subst k v; clear E.
    + exfalso. vm_compute in Hge. now apply Hge.
    + left. vm_compute. lia.
    + left. vm_compute. lia.
    + right.
      exists (Sample.PrefixExpiryKey 2 (PrefixInfo.RawPrefix Sample.info_hello)), Sample.foo.
      vm_compute. repeat split; try discriminate; try lia.
      * right. right. left. reflexivity.
      * intros [X|[_ X]]; discriminate.
  - exists kvs. split; [exact Hrun|].
    apply (Hlim [Sample.WithPrefix] 1%N []); [reflexivity|constructor|lia].
Defined.

(** ** More on the store: lookups after a write to another key *)

Lemma Get_Put_other (db : Database) (k k' v : bytes) :
  k <> k' -> memdb.Get (memdb.Put db k v) k' = memdb.Get db k'.
Proof.
  intros Hne. unfold memdb.Get, memdb.Put. simpl.
  assert (Hf : Bytes.Equal k' k = false) by (apply Equal_false_iff; congruence).
  induction (entries db) as [|[k1 v1] l IH]; simpl.
  - now rewrite Hf.
  - destruct (Bytes.cmp k k1) eqn:C; simpl.
    + apply cmp_Eq in C. subst k1. now rewrite Hf.
    + now rewrite Hf.
    + destruct (Bytes.Equal k' k1); [reflexivity|exact IH].
Qed.

Lemma Get_Delete_other (db : Database) (k k' : bytes) :
  k <> k' -> memdb.Get (memdb.Delete db k) k' = memdb.Get db k'.
Proof.
  intros Hne. unfold memdb.Get, memdb.Delete, memdb.remove. simpl.
  induction (entries db) as [|[k1 v1] l IH]; simpl; [reflexivity|].
  destruct (Bytes.Equal k k1) eqn:E; simpl.
  - apply Equal_true_iff in E. subst k1.
    replace (Bytes.Equal k' k) with false
      by (symmetry; apply Equal_false_iff; congruence).
    exact IH.
  - destruct (Bytes.Equal k' k1); [reflexivity|exact IH].
Qed.

Lemma Get_In (db : Database) (k v : bytes) :
  memdb.Get db k = Some v -> In (k, v) (entries db).
Proof.
  unfold memdb.Get.
  destruct (find (fun e => Bytes.Equal k (fst e)) (entries db)) as [[k1 v1]|] eqn:F;
    [|discriminate].
  simpl. intros E. inversion E; subst v1.
  apply find_some in F. destruct F as [Hin He]. simpl in He.
  apply Equal_true_iff in He. now subst k1.
Qed.

Lemma Get_None_not_In (db : Database) (k v : bytes) :
  memdb.Get db k = None -> ~ In (k, v) (entries db).
Proof.
  unfold memdb.Get. intros Hn Hin.
  destruct (find (fun e => Bytes.Equal k (fst e)) (entries db)) eqn:F; [discriminate|].
  apply (find_none _ _ F) in Hin. simpl in Hin.
  unfold Bytes.Equal in Hin. now rewrite cmp_refl in Hin.
Qed.

Lemma Delete_In (db : Database) (k : bytes) (e : bytes * bytes) :
  In e (entries (memdb.Delete db k)) <-> In e (entries db) /\ fst e <> k.
Proof.
  unfold memdb.Delete, memdb.remove. simpl. rewrite filter_In.
  rewrite negb_true_iff, Equal_false_iff. intuition congruence.
Qed.

Lemma Put_In (db : Database) (k v : bytes) (e : bytes * bytes) :
  In e (entries (memdb.Put db k v)) -> e = (k, v) \/ In e (entries db).
Proof. apply insert_In. Qed.

Lemma fold_Delete_In (l : list (bytes * bytes)) (db : Database) (e : bytes * bytes) :
  In e (entries (fold_left (fun d x => memdb.Delete d (fst x)) l db)) <->
  In e (entries db) /\ ~ In (fst e) (map fst l).
Proof.
  revert db; induction l as [|x l IH]; intros db; simpl; [tauto|].
  rewrite IH, Delete_In. intuition congruence.
Qed.

Lemma ClearPrefix_In (db : Database) (prefix : bytes) (e : bytes * bytes) :
  In e (entries (memdb.ClearPrefix db prefix)) <->
  In e (entries db) /\ Bytes.HasPrefix (fst e) prefix = false.
Proof.
  unfold memdb.ClearPrefix, memdb.NewIteratorWithPrefix. rewrite fold_Delete_In.
  split; intros [Hin Hn]; split; auto.
  - destruct (Bytes.HasPrefix (fst e) prefix) eqn:Hp; [|reflexivity].
    elim Hn. apply in_map. apply filter_In. auto.
  - intros Hm. apply in_map_iff in Hm. destruct Hm as (x & Hx & Hxin).
    apply filter_In in Hxin. destruct Hxin as [_ Hp]. congruence.
Qed.

(** ** [encoding/binary]: what is written is read back *)

Lemma byte_of_Z_to_N (z : Z) :
  Z.of_N (Byte.to_N (LittleEndian.byte_of_Z z)) = z mod 256.
Proof.
  unfold LittleEndian.byte_of_Z.
  assert (Hr : 0 <= z mod 256 < 256) by (apply Z.mod_pos_bound; lia).
  destruct (Byte.of_N (Z.to_N (z mod 256))) as [b|] eqn:E.
  - apply Byte.to_of_N in E. rewrite E. lia.
  - apply Byte.of_N_None_iff in E. lia.
Qed.

Lemma put_length (n : nat) (u : Z) : length (LittleEndian.put n u) = n.
Proof. revert u; induction n as [|n IH]; intros u; simpl; [|rewrite IH]; reflexivity. Qed.

Lemma Uint64_put (n : nat) (u : Z) :
  0 <= u < 256 ^ Z.of_nat n -> LittleEndian.Uint64 (LittleEndian.put n u) = u.
Proof.
  revert u; induction n as [|n IH]; intros u Hu.
  - simpl in *. lia.
  - cbn [LittleEndian.put LittleEndian.Uint64].
    rewrite byte_of_Z_to_N, IH.
    + symmetry. rewrite Z.add_comm. apply Z.div_mod. lia.
    + rewrite Nat2Z.inj_succ, Z.pow_succ_r in Hu by lia.
      split; [apply Z.div_pos; lia|apply Z.div_lt_upper_bound; lia].
Qed.

Lemma Uint64_PutUint64 (u : Z) :
  0 <= u < 2 ^ 64 -> LittleEndian.Uint64 (LittleEndian.PutUint64 u) = u.
Proof. intros Hu. apply Uint64_put. exact Hu. Qed.

Lemma to_int64_to_uint64 (t : Z) :
  - 2 ^ 63 <= t < 2 ^ 63 -> LittleEndian.to_int64 (LittleEndian.to_uint64 t) = t.
Proof.
  intros Ht. unfold LittleEndian.to_int64, LittleEndian.to_uint64.
  destruct (Z.ltb_spec t 0) as [Hneg|Hpos].
  - replace (t mod 2 ^ 64) with (t + 2 ^ 64)
      by (apply Z.mod_unique with (-1); lia).
    destruct (Z.ltb_spec (t + 2 ^ 64) (2 ^ 63)); lia.
  - rewrite Z.mod_small by lia.
    destruct (Z.ltb_spec t (2 ^ 63)); lia.
Qed.

Lemma to_uint64_range (t : Z) : 0 <= LittleEndian.to_uint64 t < 2 ^ 64.
Proof. unfold LittleEndian.to_uint64. apply Z.mod_pos_bound. lia. Qed.

Lemma Uint64_range (b : bytes) :
  0 <= LittleEndian.Uint64 b < 256 ^ Z.of_nat (length b).
Proof.
  induction b as [|x b IH]; [simpl; lia|].
  cbn [LittleEndian.Uint64 length].
  rewrite Nat2Z.inj_succ, Z.pow_succ_r by lia.
  pose proof (Byte.to_N_bounded x). lia.
Qed.

Lemma to_int64_range (u : Z) :
  0 <= u < 2 ^ 64 -> - 2 ^ 63 <= LittleEndian.to_int64 u < 2 ^ 63.
Proof.
  intros Hu. unfold LittleEndian.to_int64.
  destruct (Z.ltb_spec u (2 ^ 63)); lia.
Qed.

Lemma firstn_exact {A} (l l' : list A) (n : nat) :
  length l = n -> firstn n (l ++ l') = l.
Proof.
  intros <-. rewrite firstn_app, Nat.sub_diag, firstn_all. simpl. apply app_nil_r.
Qed.

Lemma skipn_exact {A} (l l' : list A) (n : nat) :
  length l = n -> skipn n (l ++ l') = l'.
Proof.
  intros <-. rewrite skipn_app, Nat.sub_diag, skipn_all. reflexivity.
Qed.

Lemma app_inj_length {A} (a b c d : list A) :
  length a = length c -> a ++ b = c ++ d -> a = c /\ b = d.
Proof.
  revert c; induction a as [|x a IH]; intros [|y c]; simpl; try discriminate; auto.
  intros Hl E. inversion E; subst. inversion Hl as [Hl'].
  destruct (IH c Hl' H1). subst. auto.
Qed.

(** ** Key codec *)

Section Codec.

Context `{Collaborators}.

Lemma specificTimeKey_length (p : byte) (t : Z) (rprefix : ShortID) :
  length (specificTimeKey p t rprefix) = (11 + length rprefix)%nat.
Proof.
  unfold specificTimeKey. cbn [length]. rewrite length_app. cbn [length].
  unfold LittleEndian.PutUint64. rewrite put_length. lia.
Qed.

(** Decoding after encoding. *)
Lemma extract_of_specificTimeKey (p : byte) (t : Z) (rprefix : ShortID) :
  - 2 ^ 63 <= t < 2 ^ 63 ->
  length rprefix = shortIDLen ->
  extractSpecificTimeKey (specificTimeKey p t rprefix) = Ret (t, rprefix).
Proof.
  intros Ht Hr. unfold extractSpecificTimeKey.
  pose proof (put_length 8 (LittleEndian.to_uint64 t)) as Hp.
  rewrite specificTimeKey_length, Hr.
  change (Nat.eqb (11 + shortIDLen) specificTimeKeyLen) with true. cbn [negb].
  unfold specificTimeKey.
  change (skipn 2 (p :: Delimiter
                     :: LittleEndian.PutUint64 (LittleEndian.to_uint64 t)
                        ++ Delimiter :: rprefix))
    with (LittleEndian.PutUint64 (LittleEndian.to_uint64 t) ++ Delimiter :: rprefix).
  rewrite firstn_exact by exact Hp.
  rewrite Uint64_PutUint64 by apply to_uint64_range.
  rewrite to_int64_to_uint64 by exact Ht.
  change (skipn (2 + 8 + 1)
            (p :: Delimiter
               :: LittleEndian.PutUint64 (LittleEndian.to_uint64 t)
                  ++ Delimiter :: rprefix))
    with (skipn 9 (LittleEndian.PutUint64 (LittleEndian.to_uint64 t)
                   ++ Delimiter :: rprefix)).
  replace (LittleEndian.PutUint64 (LittleEndian.to_uint64 t) ++ Delimiter :: rprefix)
    with ((LittleEndian.PutUint64 (LittleEndian.to_uint64 t) ++ [Delimiter]) ++ rprefix)
    by (now rewrite <- app_assoc).
  rewrite skipn_exact
    by (rewrite length_app; unfold LittleEndian.PutUint64; rewrite Hp; reflexivity).
  unfold ToShortID. now rewrite Hr, Nat.eqb_refl.
Qed.

(** X1. A time key is decoded to the timestamp and raw prefix it was built
    from: the encoding of the expiry and pruning families is lossless. *)
Theorem extractSpecificTimeKey_specificTimeKey (p : byte) (t : Z) (rprefix : ShortID) :
  - 2 ^ 63 <= t < 2 ^ 63 ->
  length rprefix = shortIDLen ->
  extractSpecificTimeKey (specificTimeKey p t rprefix) = Ret (t, rprefix).
Proof. exact (extract_of_specificTimeKey p t rprefix). Qed.

(** X2. The decoder accepts exactly the keys of 31 bytes: any other length
    gives [ErrInvalidKeyFormat], and a key of 31 bytes always decodes, to a
    timestamp in the [int64] range and a raw prefix of 20 bytes. *)
Theorem extractSpecificTimeKey_length (k : bytes) :
  (length k <> specificTimeKeyLen ->
   extractSpecificTimeKey k = Err ErrInvalidKeyFormat) /\
  (length k = specificTimeKeyLen ->
   exists t rprefix,
     extractSpecificTimeKey k = Ret (t, rprefix) /\
     - 2 ^ 63 <= t < 2 ^ 63 /\ length rprefix = shortIDLen).
Proof.
  unfold extractSpecificTimeKey. split; intros Hl.
  - apply Nat.eqb_neq in Hl. now rewrite Hl.
  - rewrite Hl, Nat.eqb_refl. cbn [negb].
    assert (Hs : length (skipn (2 + 8 + 1) k) = shortIDLen)
      by (rewrite length_skipn, Hl; reflexivity).
    unfold ToShortID. rewrite Hs, Nat.eqb_refl.
    eexists _, _. split; [reflexivity|]. split; [|exact Hs].
    apply to_int64_range.
    pose proof (Uint64_range (firstn 8 (skipn 2 k))) as Hu.
    assert (L : length (firstn 8 (skipn 2 k)) = 8%nat)
      by (rewrite length_firstn, length_skipn, Hl; reflexivity).
    rewrite L in Hu. exact Hu.
Qed.

(** Equal time keys have equal parts. *)
Lemma specificTimeKey_eq_inv (p p' : byte) (t t' : Z) (r r' : ShortID) :
  - 2 ^ 63 <= t < 2 ^ 63 ->
  - 2 ^ 63 <= t' < 2 ^ 63 ->
  specificTimeKey p t r = specificTimeKey p' t' r' ->
  p = p' /\ t = t' /\ r = r'.
Proof.
  intros Ht Ht' E. unfold specificTimeKey in E.
  remember (LittleEndian.PutUint64 (LittleEndian.to_uint64 t) ++ Delimiter :: r) as X eqn:HX.
  remember (LittleEndian.PutUint64 (LittleEndian.to_uint64 t') ++ Delimiter :: r') as X' eqn:HX'.
  injection E as Hp Happ. subst X X'.
  apply app_inj_length in Happ;
    [|unfold LittleEndian.PutUint64; now rewrite !put_length].
  destruct Happ as [Hts Hr]. injection Hr as Hr.
  repeat split; auto.
  apply (f_equal LittleEndian.Uint64) in Hts.
  rewrite !Uint64_PutUint64 in Hts by apply to_uint64_range.
  apply (f_equal LittleEndian.to_int64) in Hts.
  now rewrite !to_int64_to_uint64 in Hts.
Qed.

(** X3. Time keys are injective: two expiry or pruning keys are equal only
    if their tags, timestamps and raw prefixes are. *)
Theorem specificTimeKey_inj (p p' : byte) (t t' : Z) (r r' : ShortID) :
  - 2 ^ 63 <= t < 2 ^ 63 ->
  - 2 ^ 63 <= t' < 2 ^ 63 ->
  specificTimeKey p t r = specificTimeKey p' t' r' ->
  p = p' /\ t = t' /\ r = r'.
Proof. exact (specificTimeKey_eq_inv p p' t t' r r'). Qed.

(** Equal value keys have equal parts. *)
Lemma PrefixValueKey_eq_inv (r r' : ShortID) (k k' : bytes) :
  length r = length r' ->
  PrefixValueKey r k = PrefixValueKey r' k' ->
  r = r' /\ k = k'.
Proof.
  intros Hl E. unfold PrefixValueKey in E. injection E as Happ.
  apply app_inj_length in Happ; [|exact Hl].
  destruct Happ as [Hr Hk]. now injection Hk as Hk.
Qed.

(** X4. Value keys are injective on raw prefixes of one length: two keys
    of two namespaces, or two keys of one namespace, never share a store
    key. *)
Theorem PrefixValueKey_inj (r r' : ShortID) (k k' : bytes) :
  length r = length r' ->
  PrefixValueKey r k = PrefixValueKey r' k' ->
  r = r' /\ k = k'.
Proof. exact (PrefixValueKey_eq_inv r r' k k'). Qed.

(** X5. The key families are disjoint: a block key, a transaction key, a
    PrefixInfo key, a value key, an expiry key, a pruning key and the
    pointer to the last accepted block are pairwise different, whatever
    they are built from. *)
Theorem key_families_disjoint (bid tid : ID) (prefix : bytes) (r r1 r2 : ShortID)
  (k : bytes) (t1 t2 : Z) :
  NoDup [PrefixBlockKey bid; PrefixTxKey tid; PrefixInfoKey prefix;
         PrefixValueKey r k; PrefixExpiryKey t1 r1; PrefixPruningKey t2 r2;
         lastAccepted].
Proof.
  repeat constructor; simpl; intuition discriminate.
Qed.

End Codec.

(** ** Prefix registry: what is written is read back *)

Section Registry.

Context `{Collaborators}.

Hypothesis ComputeHash160_len : forall r, length (ComputeHash160 r) = shortIDLen.

Lemma GetPrefixInfo_Get_eq (prefix : bytes) (db db' : Database) :
  memdb.Get db' (PrefixInfoKey prefix) = memdb.Get db (PrefixInfoKey prefix) ->
  fst (GetPrefixInfo prefix db') = fst (GetPrefixInfo prefix db).
Proof. intros E. now rewrite !GetPrefixInfo_spec, E. Qed.

Lemma GetPrefixInfo_fst (prefix : bytes) (db : Database) o :
  fst (GetPrefixInfo prefix db) = o -> GetPrefixInfo prefix db = (o, db).
Proof. rewrite GetPrefixInfo_spec. simpl. now intros ->. Qed.

Lemma GetPrefixInfo_stored (prefix b : bytes) (i : PrefixInfo.t) (db : Database) :
  memdb.Get db (PrefixInfoKey prefix) = Some b -> Unmarshal b = Some i ->
  GetPrefixInfo prefix db = (Ret (Some i), db).
Proof. intros Hg Hu. now rewrite GetPrefixInfo_spec, Hg, Hu. Qed.

Lemma info_key_not_value_key (prefix : bytes) (r : ShortID) (k : bytes) :
  PrefixValueKey r k <> PrefixInfoKey prefix.
Proof. discriminate. Qed.

Lemma info_key_not_time_key (prefix : bytes) (p : byte) (t : Z) (r : ShortID) :
  p = expiryPrefix \/ p = pruningPrefix ->
  specificTimeKey p t r <> PrefixInfoKey prefix.
Proof. intros [->| ->]; discriminate. Qed.

Lemma value_key_not_time_key (r r' : ShortID) (k : bytes) (p : byte) (t : Z) :
  p = expiryPrefix \/ p = pruningPrefix ->
  specificTimeKey p t r' <> PrefixValueKey r k.
Proof. intros [->| ->]; discriminate. Qed.

(** The run of [PutPrefixInfo], once the record serialises. *)
Lemma PutPrefixInfo_run (prefix b : bytes) (i : PrefixInfo.t) (lastExpiry : Z)
  (db : Database) :
  let i' := registered prefix i in
  Marshal i' = Some b ->
  PutPrefixInfo prefix i lastExpiry db =
    (Ret tt,
     memdb.Put
       (memdb.Put
          (if 0 <=? lastExpiry
           then memdb.Delete db (PrefixExpiryKey lastExpiry (PrefixInfo.RawPrefix i'))
           else db)
          (PrefixExpiryKey (PrefixInfo.Expiry i') (PrefixInfo.RawPrefix i')) prefix)
       (PrefixInfoKey prefix) b).
Proof.
  intros i' Hb. unfold PutPrefixInfo, bind at 1.
  rewrite (fillRawPrefix_registered ComputeHash160_len). fold i'. monad.
  rewrite Hb. now destruct (0 <=? lastExpiry).
Qed.

(** X6. A record put is the record got: after [PutPrefixInfo], whose
    serialisation the codec reads back, [GetPrefixInfo] returns the record
    (with its raw prefix filled in), [HasPrefix] is true, and the expiry
    schedule holds the prefix text under the record's expiry. *)
Theorem PutPrefixInfo_GetPrefixInfo (prefix b : bytes) (i : PrefixInfo.t)
  (lastExpiry : Z) (db : Database) :
  let i' := registered prefix i in
  Marshal i' = Some b ->
  Unmarshal b = Some i' ->
  exists db',
    PutPrefixInfo prefix i lastExpiry db = (Ret tt, db') /\
    GetPrefixInfo prefix db' = (Ret (Some i'), db') /\
    HasPrefix prefix db' = (Ret true, db') /\
    memdb.Get db' (PrefixExpiryKey (PrefixInfo.Expiry i') (PrefixInfo.RawPrefix i'))
    = Some prefix.
Proof.
  intros i' Hb Hu. eexists. split; [exact (PutPrefixInfo_run prefix b i lastExpiry db Hb)|].
  repeat split.
  - eapply GetPrefixInfo_stored; [apply Get_Put_same|exact Hu].
  - unfold HasPrefix, memdb.Has. now rewrite Get_Put_same.
  - rewrite Get_Put_other by (apply not_eq_sym, info_key_not_time_key; now left).
    apply Get_Put_same.
Qed.

(** X7. Re-indexing retires the stale schedule entry: after
    [PutPrefixInfo] with a previous expiry that differs from the record's
    expiry, the expiry schedule has no entry under the previous expiry. *)
Theorem PutPrefixInfo_retires_stale (prefix b : bytes) (i : PrefixInfo.t)
  (lastExpiry : Z) (db : Database) :
  let i' := registered prefix i in
  Marshal i' = Some b ->
  0 <= lastExpiry < 2 ^ 63 ->
  - 2 ^ 63 <= PrefixInfo.Expiry i' < 2 ^ 63 ->
  lastExpiry <> PrefixInfo.Expiry i' ->
  exists db',
    PutPrefixInfo prefix i lastExpiry db = (Ret tt, db') /\
    memdb.Get db' (PrefixExpiryKey lastExpiry (PrefixInfo.RawPrefix i')) = None.
Proof.
  intros i' Hb Hl He Hne. subst i'.
  eexists. split; [exact (PutPrefixInfo_run prefix b i lastExpiry db Hb)|].
  rewrite Get_Put_other by (apply not_eq_sym, info_key_not_time_key; now left).
  rewrite Get_Put_other.
  - replace (0 <=? lastExpiry) with true by (symmetry; apply Z.leb_le; lia).
    apply Get_Delete_same.
  - unfold PrefixExpiryKey. intros E.
    apply specificTimeKey_eq_inv in E; [|lia|lia]. destruct E as (_ & E & _). congruence.
Qed.

(** X8. A value put is the value got: on an existing prefix
    [PutPrefixKey] succeeds, [GetValue] and [HasPrefixKey] then find the
    value, and the PrefixInfo record is as before. *)
Theorem PutPrefixKey_GetValue (prefix k v : bytes) (i : PrefixInfo.t) (db : Database) :
  GetPrefixInfo prefix db = (Ret (Some i), db) ->
  exists db',
    PutPrefixKey prefix k v db = (Ret tt, db') /\
    GetValue prefix k db' = (Ret (Some v), db') /\
    HasPrefixKey prefix k db' = (Ret true, db') /\
    GetPrefixInfo prefix db' = (Ret (Some i), db').
Proof.
  intros Hi.
  exists (memdb.Put db (PrefixValueKey (PrefixInfo.RawPrefix i) k) v).
  assert (Hi' : GetPrefixInfo prefix
                  (memdb.Put db (PrefixValueKey (PrefixInfo.RawPrefix i) k) v)
                = (Ret (Some i),
                   memdb.Put db (PrefixValueKey (PrefixInfo.RawPrefix i) k) v)).
  { apply GetPrefixInfo_fst.
    rewrite (GetPrefixInfo_Get_eq prefix db); [now rewrite Hi|].
    apply Get_Put_other, info_key_not_value_key. }
  repeat split.
  - unfold PutPrefixKey, bind. now rewrite Hi.
  - unfold GetValue, bind. rewrite Hi'. monad. now rewrite Get_Put_same.
  - unfold HasPrefixKey, bind. rewrite Hi'. unfold memdb.Has. now rewrite Get_Put_same.
  - exact Hi'.
Qed.

(** X9. A value put leaves the other values alone: after [PutPrefixKey]
    on a key, [GetValue] of any other key of the prefix returns what it
    returned before. *)
Theorem PutPrefixKey_other_key (prefix k k' v : bytes) (i : PrefixInfo.t)
  (db db' : Database) :
  GetPrefixInfo prefix db = (Ret (Some i), db) ->
  k' <> k ->
  PutPrefixKey prefix k v db = (Ret tt, db') ->
  fst (GetValue prefix k' db') = fst (GetValue prefix k' db).
Proof.
  intros Hi Hne Hrun. unfold PutPrefixKey, bind in Hrun. rewrite Hi in Hrun.
  monad. inversion Hrun; subst db'; clear Hrun.
  assert (Hi' : GetPrefixInfo prefix
                  (memdb.Put db (PrefixValueKey (PrefixInfo.RawPrefix i) k) v)
                = (Ret (Some i),
                   memdb.Put db (PrefixValueKey (PrefixInfo.RawPrefix i) k) v)).
  { apply GetPrefixInfo_fst.
    rewrite (GetPrefixInfo_Get_eq prefix db); [now rewrite Hi|].
    apply Get_Put_other, info_key_not_value_key. }
  unfold GetValue, bind. rewrite Hi, Hi'. simpl.
  rewrite Get_Put_other; [reflexivity|].
  intros E. apply PrefixValueKey_eq_inv in E; [|reflexivity]. destruct E. congruence.
Qed.

(** X10. A value deleted is gone: on an existing prefix [DeletePrefixKey]
    succeeds whether or not the key held a value, [GetValue] and
    [HasPrefixKey] then report the key as absent, and the PrefixInfo record
    is as before. *)
Theorem DeletePrefixKey_GetValue (prefix k : bytes) (i : PrefixInfo.t) (db : Database) :
  GetPrefixInfo prefix db = (Ret (Some i), db) ->
  exists db',
    DeletePrefixKey prefix k db = (Ret tt, db') /\
    GetValue prefix k db' = (Ret None, db') /\
    HasPrefixKey prefix k db' = (Ret false, db') /\
    GetPrefixInfo prefix db' = (Ret (Some i), db').
Proof.
  intros Hi.
  exists (memdb.Delete db (PrefixValueKey (PrefixInfo.RawPrefix i) k)).
  assert (Hi' : GetPrefixInfo prefix
                  (memdb.Delete db (PrefixValueKey (PrefixInfo.RawPrefix i) k))
                = (Ret (Some i),
                   memdb.Delete db (PrefixValueKey (PrefixInfo.RawPrefix i) k))).
  { apply GetPrefixInfo_fst.
    rewrite (GetPrefixInfo_Get_eq prefix db); [now rewrite Hi|].
    apply Get_Delete_other, info_key_not_value_key. }
  repeat split.
  - unfold DeletePrefixKey, bind. now rewrite Hi.
  - unfold GetValue, bind. rewrite Hi'. monad. now rewrite Get_Delete_same.
  - unfold HasPrefixKey, bind. rewrite Hi'. unfold memdb.Has.
    now rewrite Get_Delete_same.
  - exact Hi'.
Qed.

(** X11. The presence tests agree with the reads: [HasPrefix] is false
    exactly when [GetPrefixInfo] finds no record, and whenever [GetValue]
    returns, [HasPrefixKey] returns whether it found a value. *)
Theorem Has_agrees_with_Get (prefix k : bytes) (db : Database) :
  (HasPrefix prefix db = (Ret false, db) <-> GetPrefixInfo prefix db = (Ret None, db)) /\
  (forall o, GetValue prefix k db = (Ret o, db) ->
     HasPrefixKey prefix k db
     = (Ret (match o with Some _ => true | None => false end), db)).
Proof.
  split.
  - unfold HasPrefix, memdb.Has. rewrite GetPrefixInfo_spec.
    destruct (memdb.Get db (PrefixInfoKey prefix)) as [b|];
      [destruct (Unmarshal b)|]; split; intros E; try reflexivity; discriminate.
  - intros o. unfold GetValue, HasPrefixKey, bind. rewrite GetPrefixInfo_spec.
    destruct (memdb.Get db (PrefixInfoKey prefix)) as [b|].
    + destruct (Unmarshal b) as [i|]; [|discriminate].
      monad. unfold memdb.Has. intros E. injection E as <-.
      now destruct (memdb.Get db (PrefixValueKey (PrefixInfo.RawPrefix i) k)).
    + monad. intros E. now injection E as <-.
Qed.

End Registry.

(** ** Set transaction: the successful run *)

Lemma wrap64_small (z : Z) : - 2 ^ 63 <= z < 2 ^ 63 -> wrap64 z = z.
Proof. intros Hz. unfold wrap64. rewrite Z.mod_small; lia. Qed.

Section SetTxFacts.

Context `{Collaborators}.

Lemma setLease_RawPrefix (i : PrefixInfo.t) (a b c : Z) :
  PrefixInfo.RawPrefix (setLease i a b c) = PrefixInfo.RawPrefix i.
Proof. reflexivity. Qed.

(** [PutPrefixInfo] on a record that has its raw prefix. *)
Lemma PutPrefixInfo_run_set (prefix : bytes) (i : PrefixInfo.t) (lastExpiry : Z)
  (db : Database) :
  Bytes.Equal (PrefixInfo.RawPrefix i) ShortEmpty = false ->
  let db1 :=
    memdb.Put
      (if 0 <=? lastExpiry
       then memdb.Delete db (PrefixExpiryKey lastExpiry (PrefixInfo.RawPrefix i))
       else db)
      (PrefixExpiryKey (PrefixInfo.Expiry i) (PrefixInfo.RawPrefix i)) prefix in
  PutPrefixInfo prefix i lastExpiry db =
    match Marshal i with
    | Some b => (Ret tt, memdb.Put db1 (PrefixInfoKey prefix) b)
    | None => (Err ErrCodec, db1)
    end.
Proof.
  intros Hr db1. unfold PutPrefixInfo, fillRawPrefix, bind at 1. rewrite Hr. monad.
  subst db1. destruct (0 <=? lastExpiry); now destruct (Marshal i).
Qed.

(** What a successful [Execute] has checked and written. *)
Lemma Execute_Ret_inv (s : SetTx.t) (blockTime : Z) (db db' : Database)
  (i : PrefixInfo.t) :
  let stored := memdb.Get db (PrefixValueKey (PrefixInfo.RawPrefix i) (SetTx.Key s)) in
  let units := unitsAfter i stored (SetTx.Value s) in
  let i' := leaseAfter i blockTime units in
  let dbv := valueWritten db i s in
  GetPrefixInfo (SetTx.Prefix s) db = (Ret (Some i), db) ->
  Bytes.Equal (PrefixInfo.RawPrefix i) ShortEmpty = false ->
  Execute s blockTime db = (Ret tt, db') ->
  PrefixInfo.Owner i = SetTx.Sender s /\
  blockTime <= PrefixInfo.Expiry i /\
  units <> 0 /\
  (Bytes.len (SetTx.Value s) = 0 -> stored <> None) /\
  exists b,
    Marshal i' = Some b /\
    db' = memdb.Put
            (memdb.Put
               (if 0 <=? PrefixInfo.Expiry i
                then memdb.Delete dbv
                       (PrefixExpiryKey (PrefixInfo.Expiry i) (PrefixInfo.RawPrefix i))
                else dbv)
               (PrefixExpiryKey (PrefixInfo.Expiry i') (PrefixInfo.RawPrefix i)) (SetTx.Prefix s))
            (PrefixInfoKey (SetTx.Prefix s)) b.
Proof.
  intros stored units i' dbv Hi Hr Hrun.
  unfold Execute in Hrun.
  destruct (CheckKey (SetTx.Key s)); [discriminate|].
  destruct (Bytes.len (SetTx.Value s) >? MaxValueLength); [discriminate|].
  unfold bind at 1 in Hrun. rewrite Hi in Hrun.
  destruct (Bytes.Equal (PrefixInfo.Owner i) (SetTx.Sender s)) eqn:Ho;
    [|discriminate].
  apply Equal_true_iff in Ho. cbn [negb] in Hrun.
  destruct (Z.ltb_spec (PrefixInfo.Expiry i) blockTime) as [|He]; [discriminate|].
  unfold updatePrefix, GetValue in Hrun.
  unfold bind at 1 2 in Hrun. rewrite Hi in Hrun.
  unfold db_get at 1 in Hrun. fold stored in Hrun.
  assert (Htail : forall d,
             (newTimeRemaining <- div64
                (mul64 (sub64 (PrefixInfo.Expiry i) (PrefixInfo.LastUpdated i))
                   (PrefixInfo.Units i)) units ;;
              PutPrefixInfo (SetTx.Prefix s)
                (setLease i blockTime (add64 blockTime newTimeRemaining) units)
                (PrefixInfo.Expiry i)) d = (Ret tt, db') ->
             units <> 0 /\
             exists b, Marshal i' = Some b /\
               db' = memdb.Put
                       (memdb.Put
                          (if 0 <=? PrefixInfo.Expiry i
                           then memdb.Delete d
                                  (PrefixExpiryKey (PrefixInfo.Expiry i)
                                     (PrefixInfo.RawPrefix i))
                           else d)
                          (PrefixExpiryKey (PrefixInfo.Expiry i') (PrefixInfo.RawPrefix i))
                          (SetTx.Prefix s))
                       (PrefixInfoKey (SetTx.Prefix s)) b).
  { intros d Hd. unfold div64, bind in Hd.
    destruct (Z.eqb_spec units 0) as [|Hu]; [discriminate|].
    unfold ret in Hd. fold (leaseAfter i blockTime units) in Hd. fold i' in Hd.
    rewrite (PutPrefixInfo_run_set (SetTx.Prefix s) i' (PrefixInfo.Expiry i) d Hr) in Hd.
    split; [exact Hu|].
    destruct (Marshal i') as [b|]; [|discriminate].
    exists b. split; [reflexivity|]. now inversion Hd. }
  unfold units at 1, unitsAfter, dbv, valueWritten.
  unfold units, unitsAfter in Htail.
  destruct (Bytes.len (SetTx.Value s) =? 0) eqn:Hlen.
  - destruct stored as [v|] eqn:Hs; [|discriminate].
    unfold DeletePrefixKey in Hrun.
    unfold bind at 1 2 3 in Hrun. rewrite Hi in Hrun. unfold db_delete, ret at 1 in Hrun.
    apply Htail in Hrun. destruct Hrun as [Hu Hdb].
    repeat split; auto. discriminate.
  - unfold PutPrefixKey in Hrun.
    unfold bind at 1 2 3 in Hrun. rewrite Hi in Hrun. unfold db_put at 1, ret at 1 in Hrun.
    apply Htail in Hrun. destruct Hrun as [Hu Hdb].
    repeat split; auto.
    intros E. apply Z.eqb_neq in Hlen. contradiction.
Qed.

(** The record a successful [Execute] leaves under the prefix. *)
Lemma Execute_stored_info (s : SetTx.t) (blockTime : Z) (db db' : Database)
  (i : PrefixInfo.t) :
  let stored := memdb.Get db (PrefixValueKey (PrefixInfo.RawPrefix i) (SetTx.Key s)) in
  let i' := leaseAfter i blockTime (unitsAfter i stored (SetTx.Value s)) in
  GetPrefixInfo (SetTx.Prefix s) db = (Ret (Some i), db) ->
  Bytes.Equal (PrefixInfo.RawPrefix i) ShortEmpty = false ->
  (forall b, Marshal i' = Some b -> Unmarshal b = Some i') ->
  Execute s blockTime db = (Ret tt, db') ->
  GetPrefixInfo (SetTx.Prefix s) db' = (Ret (Some i'), db').
Proof.
  intros stored i' Hi Hr Hcodec Hrun.
  destruct (Execute_Ret_inv s blockTime db db' i Hi Hr Hrun)
    as (_ & _ & _ & _ & b & Hb & Hdb).
  fold stored in Hb, Hdb. fold i' in Hb, Hdb.
  eapply GetPrefixInfo_stored; [|exact (Hcodec b Hb)].
  rewrite Hdb. apply Get_Put_same.
Qed.

(** X12. What a successful Set or Delete writes is read back: the key
    then holds the value of the transaction (no value after a delete), and
    the PrefixInfo record is the old one with [LastUpdated] at the block
    time, the new [Units] and the re-computed [Expiry]. *)
Theorem Execute_read_back (s : SetTx.t) (blockTime : Z) (db db' : Database)
  (i : PrefixInfo.t) :
  let stored := memdb.Get db (PrefixValueKey (PrefixInfo.RawPrefix i) (SetTx.Key s)) in
  let i' := leaseAfter i blockTime (unitsAfter i stored (SetTx.Value s)) in
  GetPrefixInfo (SetTx.Prefix s) db = (Ret (Some i), db) ->
  Bytes.Equal (PrefixInfo.RawPrefix i) ShortEmpty = false ->
  (forall b, Marshal i' = Some b -> Unmarshal b = Some i') ->
  Execute s blockTime db = (Ret tt, db') ->
  GetValue (SetTx.Prefix s) (SetTx.Key s) db'
  = (Ret (if Bytes.len (SetTx.Value s) =? 0 then None else Some (SetTx.Value s)), db') /\
  GetPrefixInfo (SetTx.Prefix s) db' = (Ret (Some i'), db').
Proof.
  intros stored i' Hi Hr Hcodec Hrun.
  destruct (Execute_Ret_inv s blockTime db db' i Hi Hr Hrun)
    as (_ & _ & _ & _ & b & Hb & Hdb).
  fold stored in Hb, Hdb. fold i' in Hb, Hdb.
  assert (Hi' : GetPrefixInfo (SetTx.Prefix s) db' = (Ret (Some i'), db'))
    by exact (Execute_stored_info s blockTime db db' i Hi Hr Hcodec Hrun).
  split; [|exact Hi'].
  unfold GetValue, bind. rewrite Hi'. unfold db_get. f_equal. f_equal.
  change (PrefixInfo.RawPrefix i') with (PrefixInfo.RawPrefix i).
  rewrite Hdb.
  rewrite Get_Put_other by apply not_eq_sym, info_key_not_value_key.
  rewrite Get_Put_other by (apply value_key_not_time_key; now left).
  assert (Hv : memdb.Get (valueWritten db i s)
                 (PrefixValueKey (PrefixInfo.RawPrefix i) (SetTx.Key s))
               = if Bytes.len (SetTx.Value s) =? 0 then None else Some (SetTx.Value s)).
  { unfold valueWritten. destruct (Bytes.len (SetTx.Value s) =? 0).
    - apply Get_Delete_same.
    - apply Get_Put_same. }
  destruct (0 <=? PrefixInfo.Expiry i); [|exact Hv].
  rewrite Get_Delete_other by (apply value_key_not_time_key; now left).
  exact Hv.
Qed.

(** X13. The checks of [Execute] after the key and value checks, in their
    order: a prefix without a record gives [ErrPrefixMissing]; for the
    owner, a lease that ended before the block time gives
    [ErrPrefixExpired] (a lease ending at the block time does not), and on
    a live lease the delete of a key without a value gives [ErrKeyMissing].
    The store is left as it was. *)
Theorem Execute_rejections (s : SetTx.t) (blockTime : Z) (db : Database) :
  CheckKey (SetTx.Key s) = None ->
  Bytes.len (SetTx.Value s) <= MaxValueLength ->
  (GetPrefixInfo (SetTx.Prefix s) db = (Ret None, db) ->
   Execute s blockTime db = (Err ErrPrefixMissing, db)) /\
  (forall i,
     GetPrefixInfo (SetTx.Prefix s) db = (Ret (Some i), db) ->
     PrefixInfo.Owner i = SetTx.Sender s ->
     (PrefixInfo.Expiry i < blockTime ->
      Execute s blockTime db = (Err ErrPrefixExpired, db)) /\
     (blockTime <= PrefixInfo.Expiry i ->
      SetTx.Value s = [] ->
      memdb.Get db (PrefixValueKey (PrefixInfo.RawPrefix i) (SetTx.Key s)) = None ->
      Execute s blockTime db = (Err ErrKeyMissing, db))).
Proof.
  intros Hk Hv.
  assert (Hsize : (Bytes.len (SetTx.Value s) >? MaxValueLength) = false)
    by (rewrite Z.gtb_ltb; apply Z.ltb_ge; lia).
  split.
  - intros Hi. unfold Execute, bind. now rewrite Hk, Hsize, Hi.
  - intros i Hi Ho.
    assert (Hown : Bytes.Equal (PrefixInfo.Owner i) (SetTx.Sender s) = true)
      by (now apply Equal_true_iff).
    split.
    + intros He. unfold Execute, bind. rewrite Hk, Hsize, Hi, Hown. cbn [negb].
      now replace (PrefixInfo.Expiry i <? blockTime) with true
        by (symmetry; apply Z.ltb_lt; lia).
    + intros He Hval Hg. unfold Execute, bind at 1. rewrite Hk, Hsize, Hi, Hown.
      cbn [negb].
      replace (PrefixInfo.Expiry i <? blockTime) with false
        by (symmetry; apply Z.ltb_ge; lia).
      unfold updatePrefix, GetValue, bind. rewrite Hi. unfold db_get.
      now rewrite Hg, Hval.
Qed.

(** X14. Rent accounting: when nothing overflows, a successful Set or
    Delete that leaves [Units > 0] re-computes the lease so that the
    unit-seconds after it, [(Expiry - LastUpdated) * Units], are at most the
    unit-seconds before it and fall short of them by less than the new
    [Units]; [LastUpdated] becomes the block time. *)
Theorem Execute_lease_accounting (s : SetTx.t) (blockTime : Z) (db db' : Database)
  (i : PrefixInfo.t) :
  let stored := memdb.Get db (PrefixValueKey (PrefixInfo.RawPrefix i) (SetTx.Key s)) in
  let units := unitsAfter i stored (SetTx.Value s) in
  let i' := leaseAfter i blockTime units in
  let timeRemaining :=
    (PrefixInfo.Expiry i - PrefixInfo.LastUpdated i) * PrefixInfo.Units i in
  GetPrefixInfo (SetTx.Prefix s) db = (Ret (Some i), db) ->
  Bytes.Equal (PrefixInfo.RawPrefix i) ShortEmpty = false ->
  (forall b, Marshal i' = Some b -> Unmarshal b = Some i') ->
  0 <= PrefixInfo.Expiry i - PrefixInfo.LastUpdated i < 2 ^ 63 ->
  0 <= PrefixInfo.Units i ->
  timeRemaining < 2 ^ 63 ->
  0 < units ->
  0 <= blockTime ->
  blockTime + timeRemaining < 2 ^ 63 ->
  Execute s blockTime db = (Ret tt, db') ->
  GetPrefixInfo (SetTx.Prefix s) db' = (Ret (Some i'), db') /\
  PrefixInfo.LastUpdated i' = blockTime /\
  PrefixInfo.Units i' = units /\
  PrefixInfo.Expiry i' = blockTime + timeRemaining / units /\
  timeRemaining - units
  < (PrefixInfo.Expiry i' - PrefixInfo.LastUpdated i') * PrefixInfo.Units i'
  <= timeRemaining.
Proof.
  intros stored units i' timeRemaining Hi Hr Hcodec Hlease Hu0 Htr Hu Hbt Hsum Hrun.
  pose proof (Execute_stored_info s blockTime db db' i Hi Hr Hcodec Hrun) as Hi'.
  fold stored in Hi'. fold units in Hi'. fold i' in Hi'.
  assert (Htr0 : 0 <= timeRemaining) by (unfold timeRemaining; nia).
  assert (Hq : 0 <= timeRemaining / units <= timeRemaining).
  { split; [apply Z.div_pos; lia|].
    apply Z.div_le_upper_bound; [lia|]. nia. }
  assert (He : PrefixInfo.Expiry i' = blockTime + timeRemaining / units).
  { unfold i', leaseAfter. cbn [setLease PrefixInfo.Expiry].
    unfold mul64, sub64, add64.
    rewrite (wrap64_small (PrefixInfo.Expiry i - PrefixInfo.LastUpdated i)) by lia.
    fold timeRemaining. rewrite (wrap64_small timeRemaining) by lia.
    rewrite Z.quot_div_nonneg by lia.
    rewrite (wrap64_small (timeRemaining / units)) by lia.
    apply wrap64_small. lia. }
  repeat split; auto.
  - rewrite He. change (PrefixInfo.LastUpdated i') with blockTime.
    change (PrefixInfo.Units i') with units.
    pose proof (Z.mul_succ_div_gt timeRemaining units Hu). nia.
  - rewrite He. change (PrefixInfo.LastUpdated i') with blockTime.
    change (PrefixInfo.Units i') with units.
    pose proof (Z.mul_div_le timeRemaining units Hu). nia.
Qed.

(** X15. A write into a namespace whose [Units] are 0 (a fresh claim that
    stores nothing yet) ends its lease at the block time of the write: the
    record read back has [Expiry = LastUpdated = blockTime]. *)
Theorem Execute_zero_units_lease (s : SetTx.t) (blockTime : Z) (db db' : Database)
  (i : PrefixInfo.t) :
  let stored := memdb.Get db (PrefixValueKey (PrefixInfo.RawPrefix i) (SetTx.Key s)) in
  let i' := leaseAfter i blockTime (unitsAfter i stored (SetTx.Value s)) in
  GetPrefixInfo (SetTx.Prefix s) db = (Ret (Some i), db) ->
  Bytes.Equal (PrefixInfo.RawPrefix i) ShortEmpty = false ->
  (forall b, Marshal i' = Some b -> Unmarshal b = Some i') ->
  PrefixInfo.Units i = 0 ->
  - 2 ^ 63 <= blockTime < 2 ^ 63 ->
  Execute s blockTime db = (Ret tt, db') ->
  GetPrefixInfo (SetTx.Prefix s) db' = (Ret (Some i'), db') /\
  PrefixInfo.Expiry i' = blockTime /\
  PrefixInfo.LastUpdated i' = blockTime.
Proof.
  intros stored i' Hi Hr Hcodec Hu Hbt Hrun.
  pose proof (Execute_stored_info s blockTime db db' i Hi Hr Hcodec Hrun) as Hi'.
  fold stored in Hi'. fold i' in Hi'.
  repeat split; auto.
  unfold i', leaseAfter. cbn [setLease PrefixInfo.Expiry].
  rewrite Hu. unfold mul64, add64. rewrite Z.mul_0_r.
  rewrite (wrap64_small 0) by lia. rewrite Z.quot_0_l.
  - rewrite (wrap64_small 0) by lia. rewrite Z.add_0_r. now apply wrap64_small.
  - destruct (Execute_Ret_inv s blockTime db db' i Hi Hr Hrun) as (_ & _ & Hne & _).
    exact Hne.
Qed.

End SetTxFacts.

(** ** Expiry scheduler and pruner *)

Lemma Compare_pos_Gt (a b : bytes) : 0 < Bytes.Compare a b <-> Bytes.cmp a b = Gt.
Proof.
  unfold Bytes.Compare.
  destruct (Bytes.cmp a b); split; intros; try lia; try discriminate; reflexivity.
Qed.

Lemma Compare_nonneg_not_Lt (a b : bytes) : 0 <= Bytes.Compare a b <-> Bytes.cmp a b <> Lt.
Proof.
  unfold Bytes.Compare.
  destruct (Bytes.cmp a b); split; intros; try lia; congruence.
Qed.

Lemma cmp_Gt_Lt (a b : bytes) : Bytes.cmp a b = Gt -> Bytes.cmp b a = Lt.
Proof. intros E. now rewrite cmp_antisym, E. Qed.

Lemma HasPrefix_app (p x : bytes) : Bytes.HasPrefix (p ++ x) p = true.
Proof.
  induction p as [|b p IH]; simpl; [now destruct x|].
  rewrite IH. now rewrite (Byte.byte_dec_lb (eq_refl b)).
Qed.

Lemma Get_ClearPrefix_other (db : Database) (prefix k : bytes) :
  Bytes.HasPrefix k prefix = false ->
  memdb.Get (memdb.ClearPrefix db prefix) k = memdb.Get db k.
Proof.
  intros Hk. unfold memdb.ClearPrefix.
  assert (Hl : Forall (fun e => Bytes.HasPrefix (fst e) prefix = true)
                 (memdb.NewIteratorWithPrefix db prefix)).
  { apply Forall_forall. intros e He.
    unfold memdb.NewIteratorWithPrefix in He. now apply filter_In in He. }
  revert Hl. generalize (memdb.NewIteratorWithPrefix db prefix). intros l. revert db.
  induction l as [|e l IH]; intros db Hl; simpl; [reflexivity|].
  inversion Hl as [|? ? He Hl']; subst.
  rewrite IH by exact Hl'. apply Get_Delete_other. congruence.
Qed.

Section Scheduler.

Context `{Collaborators}.

Lemma value_key_before_expiry (r : ShortID) (k : bytes) (t : Z) :
  Bytes.Compare (PrefixValueKey r k) (RangeTimeKey expiryPrefix t) = -1.
Proof. reflexivity. Qed.

Lemma pruning_key_after_expiry (t t' : Z) (r : ShortID) :
  Bytes.Compare (PrefixPruningKey t r) (RangeTimeKey expiryPrefix t') = 1.
Proof. reflexivity. Qed.

Lemma info_key_before_expiry (prefix : bytes) (t : Z) :
  Bytes.Compare (PrefixInfoKey prefix) (RangeTimeKey expiryPrefix t) = -1.
Proof. reflexivity. Qed.

(** The writes of the expiry loop go to keys of the expiry, PrefixInfo and
    pruning families only. *)
Lemma ExpireNext_loop_values (parent : Z) (endKey : bytes) (r : ShortID) (key : bytes) :
  forall (cursor : list (bytes * bytes)) (db db' : Database) o,
    (forall k v, In (k, v) cursor ->
                 0 <= Bytes.Compare k (RangeTimeKey expiryPrefix parent)) ->
    ExpireNext_loop (RangeTimeKey expiryPrefix parent) endKey cursor db = (o, db') ->
    memdb.Get db' (PrefixValueKey r key) = memdb.Get db (PrefixValueKey r key).
Proof.
  induction cursor as [|[curKey pfx] rest IH]; intros db db' o Hge Hrun.
  - now inversion Hrun.
  - simpl ExpireNext_loop in Hrun.
    replace (Bytes.Compare (RangeTimeKey expiryPrefix parent) curKey <? -1)
      with false in Hrun by (symmetry; apply Z.ltb_ge; apply Compare_range).
    destruct (Bytes.Compare curKey endKey >? 0); [now inversion Hrun|].
    assert (Hcur : curKey <> PrefixValueKey r key).
    { intros E. specialize (Hge curKey pfx (or_introl eq_refl)).
      rewrite E, value_key_before_expiry in Hge. lia. }
    assert (Hstep : memdb.Get
                      (memdb.Delete (memdb.Delete db curKey) (PrefixInfoKey pfx))
                      (PrefixValueKey r key)
                    = memdb.Get db (PrefixValueKey r key)).
    { rewrite Get_Delete_other by (apply not_eq_sym, info_key_not_value_key).
      now apply Get_Delete_other. }
    monad. destruct (extractSpecificTimeKey curKey) as [tr|e|p].
    + apply IH in Hrun; [|intros k v Hin; apply (Hge k v); now right].
      rewrite Hrun.
      rewrite Get_Put_other by (apply value_key_not_time_key; now right).
      exact Hstep.
    + inversion Hrun; subst. exact Hstep.
    + inversion Hrun; subst. exact Hstep.
Qed.

(** X16. Expiry leaves the value records in place: whatever [ExpireNext]
    returns, every value key holds what it held before (the values of a
    demoted namespace stay until the pruner deletes them). *)
Theorem ExpireNext_keeps_values (parent current : Z) (db db' : Database) o
  (r : ShortID) (key : bytes) :
  ExpireNext parent current db = (o, db') ->
  memdb.Get db' (PrefixValueKey r key) = memdb.Get db (PrefixValueKey r key).
Proof.
  unfold ExpireNext, bind. monad. intros Hrun.
  eapply ExpireNext_loop_values; [|exact Hrun].
  intros k v Hin. now apply NewIteratorWithStart_In in Hin.
Qed.

(** After a run of the expiry loop that returns no error, the store has
    no key left between the start key and the end key. *)
Lemma ExpireNext_loop_clears (startKey : bytes) (current : Z) :
  forall (cursor : list (bytes * bytes)) (db db' : Database),
    ascending cursor ->
    (forall k v, In (k, v) (entries db) ->
       0 <= Bytes.Compare k startKey ->
       Bytes.Compare k (RangeTimeKey expiryPrefix current) <= 0 ->
       exists v', In (k, v') cursor) ->
    ExpireNext_loop startKey (RangeTimeKey expiryPrefix current) cursor db = (Ret tt, db') ->
    forall k v, In (k, v) (entries db') ->
      0 <= Bytes.Compare k startKey ->
      ~ Bytes.Compare k (RangeTimeKey expiryPrefix current) <= 0.
Proof.
  induction cursor as [|[curKey pfx] rest IH]; intros db db' Hasc Hcov Hrun k v Hin Hge Hle.
  - inversion Hrun; subst. destruct (Hcov k v Hin Hge Hle) as (v' & []).
  - apply StronglySorted_inv in Hasc. destruct Hasc as [Hrest Hmin].
    rewrite Forall_forall in Hmin.
    simpl ExpireNext_loop in Hrun.
    replace (Bytes.Compare startKey curKey <? -1)
      with false in Hrun by (symmetry; apply Z.ltb_ge; apply Compare_range).
    destruct (Bytes.Compare curKey (RangeTimeKey expiryPrefix current) >? 0) eqn:Hend.
    + inversion Hrun; subst db'.
      rewrite Z.gtb_ltb in Hend. apply Z.ltb_lt in Hend.
      destruct (Hcov k v Hin Hge Hle) as (v' & [E|Hin']).
      * inversion E; subst. lia.
      * specialize (Hmin _ Hin'). unfold key_lt in Hmin. simpl in Hmin.
        apply Compare_pos_Gt, cmp_Gt_Lt in Hend.
        pose proof (cmp_Lt_trans _ _ _ Hend Hmin) as Hlt.
        assert (Hgt : Bytes.cmp k (RangeTimeKey expiryPrefix current) = Gt)
          by (rewrite cmp_antisym, Hlt; reflexivity).
        apply Compare_pos_Gt in Hgt. lia.
    + monad. destruct (extractSpecificTimeKey curKey) as [tr|e|p]; try discriminate.
      revert k v Hin Hge Hle. eapply IH; [exact Hrest| |exact Hrun].
      intros k v Hin Hge Hle.
      apply Put_In in Hin. destruct Hin as [E|Hin].
      * inversion E; subst. rewrite pruning_key_after_expiry in Hle. lia.
      * apply Delete_In in Hin. destruct Hin as [Hin _].
        apply Delete_In in Hin. destruct Hin as [Hin Hne]. simpl in Hne.
        destruct (Hcov k v Hin Hge Hle) as (v' & [E|Hin']).
        -- inversion E; subst. congruence.
        -- now exists v'.
Qed.

(** X17. Re-scanning is idempotent: after an [ExpireNext] that returned
    no error on an ascending store, a second [ExpireNext] over the same
    range returns no error and writes nothing. *)
Theorem ExpireNext_idempotent (parent current : Z) (db db' : Database) :
  ascending (entries db) ->
  ExpireNext parent current db = (Ret tt, db') ->
  ExpireNext parent current db' = (Ret tt, db').
Proof.
  intros Hasc Hrun. unfold ExpireNext, bind in *. monad.
  pose proof (ExpireNext_loop_clears (RangeTimeKey expiryPrefix parent) current
                (memdb.NewIteratorWithStart db (RangeTimeKey expiryPrefix parent))
                db db' (NewIteratorWithStart_ascending db _ Hasc)) as Hclear.
  assert (Hnone : forall k v, In (k, v) (entries db') ->
            0 <= Bytes.Compare k (RangeTimeKey expiryPrefix parent) ->
            ~ Bytes.Compare k (RangeTimeKey expiryPrefix current) <= 0).
  { apply Hclear; [|exact Hrun].
    intros k v Hin Hge _. exists v. now apply NewIteratorWithStart_In. }
  destruct (memdb.NewIteratorWithStart db' (RangeTimeKey expiryPrefix parent))
    as [|[k v] rest] eqn:Hc; [reflexivity|].
  assert (Hin : In (k, v) (memdb.NewIteratorWithStart db' (RangeTimeKey expiryPrefix parent)))
    by (rewrite Hc; now left).
  apply NewIteratorWithStart_In in Hin. destruct Hin as [Hin Hge].
  specialize (Hnone k v Hin Hge).
  simpl ExpireNext_loop.
  replace (Bytes.Compare (RangeTimeKey expiryPrefix parent) k <? -1)
    with false by (symmetry; apply Z.ltb_ge; apply Compare_range).
  replace (Bytes.Compare k (RangeTimeKey expiryPrefix current) >? 0) with true;
    [reflexivity|].
  symmetry. rewrite Z.gtb_ltb. apply Z.ltb_lt. lia.
Qed.

(** X18. A limit of zero or less prunes nothing: [PruneNext] returns no
    error and leaves the store as it was. *)
Theorem PruneNext_no_budget (limit : Z) (db : Database) :
  limit <= 0 -> PruneNext limit db = (Ret tt, db).
Proof.
  intros Hl. unfold PruneNext, bind. monad.
  destruct (memdb.NewIteratorWithStart db (RangeTimeKey pruningPrefix 0))
    as [|[k v] rest]; [reflexivity|].
  simpl PruneNext_loop.
  now replace (0 <? limit) with false by (symmetry; apply Z.ltb_ge; lia).
Qed.

Lemma pruning_start_after_info (prefix : bytes) :
  Bytes.Compare (PrefixInfoKey prefix) (RangeTimeKey pruningPrefix 0) = -1.
Proof. reflexivity. Qed.

Lemma pruning_start_after_expiry (t : Z) (r : ShortID) :
  Bytes.Compare (PrefixExpiryKey t r) (RangeTimeKey pruningPrefix 0) = -1.
Proof. reflexivity. Qed.

(** The pruning loop only deletes. *)
Lemma PruneNext_loop_subset (limit : Z) (startKey endKey : bytes) :
  forall (cursor : list (bytes * bytes)) (removals : Z) (db db' : Database) o,
    PruneNext_loop limit startKey endKey cursor removals db = (o, db') ->
    forall e, In e (entries db') -> In e (entries db).
Proof.
  induction cursor as [|[curKey value] rest IH]; intros removals db db' o Hrun e Hin.
  - now inversion Hrun; subst.
  - simpl PruneNext_loop in Hrun.
    destruct (removals <? limit); simpl in Hrun; [|now inversion Hrun; subst].
    replace (Bytes.Compare startKey curKey <? -1) with false in Hrun
      by (symmetry; apply Z.ltb_ge; apply Compare_range).
    destruct (Bytes.Compare curKey endKey >? 0); [now inversion Hrun; subst|].
    monad. destruct (extractSpecificTimeKey curKey) as [tr|err|p];
      try (now inversion Hrun; subst).
    apply (IH _ _ _ _ Hrun) in Hin.
    apply ClearPrefix_In in Hin. destruct Hin as [Hin _].
    now apply Delete_In in Hin.
Qed.

(** The pruning loop leaves alone every key that sorts before its start
    key and is not a value key. *)
Lemma PruneNext_loop_frame (limit : Z) (startKey endKey k0 : bytes) :
  Bytes.Compare k0 startKey < 0 ->
  (forall r, Bytes.HasPrefix k0 (PrefixValueKey r []) = false) ->
  forall (cursor : list (bytes * bytes)) (removals : Z) (db db' : Database) o,
    (forall k v, In (k, v) cursor -> 0 <= Bytes.Compare k startKey) ->
    PruneNext_loop limit startKey endKey cursor removals db = (o, db') ->
    memdb.Get db' k0 = memdb.Get db k0.
Proof.
  intros Hbefore Hnv.
  induction cursor as [|[curKey value] rest IH]; intros removals db db' o Hge Hrun.
  - now inversion Hrun.
  - simpl PruneNext_loop in Hrun.
    destruct (removals <? limit); simpl in Hrun; [|now inversion Hrun].
    replace (Bytes.Compare startKey curKey <? -1) with false in Hrun
      by (symmetry; apply Z.ltb_ge; apply Compare_range).
    destruct (Bytes.Compare curKey endKey >? 0); [now inversion Hrun|].
    monad. destruct (extractSpecificTimeKey curKey) as [tr|err|p];
      try (now inversion Hrun).
    apply IH in Hrun; [|intros k v Hin; apply (Hge k v); now right].
    rewrite Hrun, Get_ClearPrefix_other by apply Hnv.
    apply Get_Delete_other. intros E.
    specialize (Hge curKey value (or_introl eq_refl)). rewrite E in Hge. lia.
Qed.

(** X19. Pruning only removes, and never from the registry or the expiry
    schedule: whatever [PruneNext] returns, every pair of the store it
    leaves was there before, and every PrefixInfo key and expiry-schedule
    key holds what it held before. *)
Theorem PruneNext_only_prunes (limit : Z) (db db' : Database) o :
  PruneNext limit db = (o, db') ->
  (forall e, In e (entries db') -> In e (entries db)) /\
  (forall prefix,
     memdb.Get db' (PrefixInfoKey prefix) = memdb.Get db (PrefixInfoKey prefix)) /\
  (forall t r,
     memdb.Get db' (PrefixExpiryKey t r) = memdb.Get db (PrefixExpiryKey t r)).
Proof.
  unfold PruneNext, bind. monad. intros Hrun.
  destruct (PruneNext_loop limit (RangeTimeKey pruningPrefix 0)
              (RangeTimeKey pruningPrefix MaxInt64)
              (memdb.NewIteratorWithStart db (RangeTimeKey pruningPrefix 0)) 0 db)
    as [o1 db1] eqn:Hloop.
  assert (Hdb : db1 = db') by (destruct o1; now inversion Hrun). subst db1.
  assert (Hge : forall k v,
            In (k, v) (memdb.NewIteratorWithStart db (RangeTimeKey pruningPrefix 0)) ->
            0 <= Bytes.Compare k (RangeTimeKey pruningPrefix 0))
    by (intros k v Hin; now apply NewIteratorWithStart_In in Hin).
  repeat split.
  - eapply PruneNext_loop_subset. exact Hloop.
  - intros prefix. eapply PruneNext_loop_frame; [| |exact Hge|exact Hloop].
    + rewrite pruning_start_after_info. lia.
    + reflexivity.
  - intros t r. eapply PruneNext_loop_frame; [| |exact Hge|exact Hloop].
    + rewrite pruning_start_after_expiry. lia.
    + reflexivity.
Qed.

Lemma PrefixValueKey_HasPrefix (r : ShortID) (key : bytes) :
  Bytes.HasPrefix (PrefixValueKey r key) (PrefixValueKey r []) = true.
Proof.
  unfold PrefixValueKey.
  replace (keyPrefix :: Delimiter :: r ++ Delimiter :: key)
    with ((keyPrefix :: Delimiter :: r ++ [Delimiter]) ++ key)
    by (simpl; now rewrite <- app_assoc).
  apply HasPrefix_app.
Qed.

(** Once the pruning loop has consumed the entry of a raw prefix, no pair
    under a value key of that raw prefix is left. *)
Lemma PruneNext_loop_consumed (limit : Z) (startKey endKey : bytes) (t : Z) (r : ShortID) :
  - 2 ^ 63 <= t < 2 ^ 63 ->
  length r = shortIDLen ->
  forall (cursor : list (bytes * bytes)) (removals n : Z) (db db' : Database),
    PruneNext_loop limit startKey endKey cursor removals db = (Ret n, db') ->
    (exists v, In (PrefixPruningKey t r, v) (entries db)) ->
    (forall v, ~ In (PrefixPruningKey t r, v) (entries db')) ->
    forall e, In e (entries db') ->
      Bytes.HasPrefix (fst e) (PrefixValueKey r []) = false.
Proof.
  intros Ht Hr.
  induction cursor as [|[curKey value] rest IH];
    intros removals n db db' Hrun [v0 Hin0] Hgone e He.
  - inversion Hrun; subst. now elim (Hgone v0).
  - simpl PruneNext_loop in Hrun.
    destruct (removals <? limit); simpl in Hrun;
      [|inversion Hrun; subst; now elim (Hgone v0)].
    replace (Bytes.Compare startKey curKey <? -1) with false in Hrun
      by (symmetry; apply Z.ltb_ge; apply Compare_range).
    destruct (Bytes.Compare curKey endKey >? 0);
      [inversion Hrun; subst; now elim (Hgone v0)|].
    monad. destruct (extractSpecificTimeKey curKey) as [tr|err|p] eqn:Hex;
      try discriminate.
    destruct (list_eq_dec Byte.byte_eq_dec curKey (PrefixPruningKey t r)) as [Heq|Hne].
    + subst curKey. unfold PrefixPruningKey in Hex.
      rewrite (extract_of_specificTimeKey pruningPrefix t r Ht Hr) in Hex.
      inversion Hex; subst tr. simpl snd in Hrun.
      apply (PruneNext_loop_subset _ _ _ _ _ _ _ _ Hrun) in He.
      apply ClearPrefix_In in He. now destruct He.
    + eapply IH; [exact Hrun| |exact Hgone|exact He].
      exists v0. apply ClearPrefix_In. split; [|reflexivity].
      apply Delete_In. split; [exact Hin0|]. simpl. congruence.
Qed.

(** X20. Pruning a namespace erases its values: when [PruneNext] returns
    no error and has consumed the pruning-schedule entry of a raw prefix
    (present before, absent after), no value key of that raw prefix holds
    a value any more. *)
Theorem PruneNext_erases_values (limit t : Z) (r : ShortID) (db db' : Database) :
  - 2 ^ 63 <= t < 2 ^ 63 ->
  length r = shortIDLen ->
  PruneNext limit db = (Ret tt, db') ->
  memdb.Get db (PrefixPruningKey t r) <> None ->
  memdb.Get db' (PrefixPruningKey t r) = None ->
  forall key, memdb.Get db' (PrefixValueKey r key) = None.
Proof.
  intros Ht Hr Hrun Hbefore Hafter key.
  unfold PruneNext, bind in Hrun. monad.
  destruct (PruneNext_loop limit (RangeTimeKey pruningPrefix 0)
              (RangeTimeKey pruningPrefix MaxInt64)
              (memdb.NewIteratorWithStart db (RangeTimeKey pruningPrefix 0)) 0 db)
    as [[n|err|p] db1] eqn:Hloop; try discriminate.
  inversion Hrun; subst db1; clear Hrun.
  destruct (memdb.Get db' (PrefixValueKey r key)) as [v|] eqn:Hg; [|reflexivity].
  apply Get_In in Hg.
  destruct (memdb.Get db (PrefixPruningKey t r)) as [v0|] eqn:Hb; [|congruence].
  apply Get_In in Hb.
  pose proof (PruneNext_loop_consumed limit _ _ t r Ht Hr _ _ _ _ _ Hloop
                (ex_intro _ v0 Hb)
                (fun v1 => Get_None_not_In db' _ v1 Hafter)
                _ Hg) as Hp.
  cbn [fst] in Hp. now rewrite PrefixValueKey_HasPrefix in Hp.
Qed.

(** A pruning entry and the absence of a PrefixInfo record outlast the
    rest of the expiry loop. *)
Lemma ExpireNext_loop_keeps_demoted (startKey : bytes) (current t : Z) (r : ShortID)
  (prefix : bytes) :
  forall (cursor : list (bytes * bytes)) (db db' : Database) o,
    ExpireNext_loop startKey (RangeTimeKey expiryPrefix current) cursor db = (o, db') ->
    memdb.Get db (PrefixPruningKey t r) = Some [] ->
    memdb.Get db (PrefixInfoKey prefix) = None ->
    memdb.Get db' (PrefixPruningKey t r) = Some [] /\
    memdb.Get db' (PrefixInfoKey prefix) = None.
Proof.
  induction cursor as [|[curKey pfx] rest IH]; intros db db' o Hrun Hp Hi.
  - inversion Hrun; subst. auto.
  - simpl ExpireNext_loop in Hrun.
    replace (Bytes.Compare startKey curKey <? -1)
      with false in Hrun by (symmetry; apply Z.ltb_ge; apply Compare_range).
    destruct (Bytes.Compare curKey (RangeTimeKey expiryPrefix current) >? 0) eqn:Hend;
      [inversion Hrun; subst; auto|].
    assert (Hcur : curKey <> PrefixPruningKey t r).
    { intros E. subst curKey. rewrite pruning_key_after_expiry in Hend. discriminate. }
    assert (Hp2 : memdb.Get (memdb.Delete (memdb.Delete db curKey) (PrefixInfoKey pfx))
                    (PrefixPruningKey t r) = Some []).
    { rewrite Get_Delete_other by (apply not_eq_sym, info_key_not_time_key; now right).
      now rewrite Get_Delete_other. }
    assert (Hi2 : memdb.Get (memdb.Delete (memdb.Delete db curKey) (PrefixInfoKey pfx))
                    (PrefixInfoKey prefix) = None).
    { destruct (list_eq_dec Byte.byte_eq_dec (PrefixInfoKey pfx) (PrefixInfoKey prefix))
        as [E|Hne].
      - rewrite E. apply Get_Delete_same.
      - rewrite Get_Delete_other by exact Hne.
        destruct (list_eq_dec Byte.byte_eq_dec curKey (PrefixInfoKey prefix)) as [E|Hne'].
        + rewrite E. apply Get_Delete_same.
        + now rewrite Get_Delete_other. }
    monad. destruct (extractSpecificTimeKey curKey) as [tr|e|p];
      try (inversion Hrun; subst; auto).
    eapply IH; [exact Hrun| |].
    + destruct (list_eq_dec Byte.byte_eq_dec (PrefixPruningKey (fst tr) (snd tr))
                  (PrefixPruningKey t r)) as [E|Hne].
      * rewrite E. apply Get_Put_same.
      * now rewrite Get_Put_other.
    + now rewrite Get_Put_other by (apply info_key_not_time_key; now right).
Qed.

Lemma ExpireNext_loop_demotes (startKey : bytes) (current t : Z) (r : ShortID)
  (prefix : bytes) :
  - 2 ^ 63 <= t < 2 ^ 63 ->
  length r = shortIDLen ->
  Bytes.Compare (PrefixExpiryKey t r) (RangeTimeKey expiryPrefix current) <= 0 ->
  forall (cursor : list (bytes * bytes)) (db db' : Database),
    ascending cursor ->
    In (PrefixExpiryKey t r, prefix) cursor ->
    ExpireNext_loop startKey (RangeTimeKey expiryPrefix current) cursor db = (Ret tt, db') ->
    memdb.Get db' (PrefixPruningKey t r) = Some [] /\
    memdb.Get db' (PrefixInfoKey prefix) = None.
Proof.
  intros Ht Hr Hle.
  induction cursor as [|[curKey pfx] rest IH]; intros db db' Hasc Hin Hrun;
    [destruct Hin|].
  apply StronglySorted_inv in Hasc. destruct Hasc as [Hrest Hmin].
  rewrite Forall_forall in Hmin.
  simpl ExpireNext_loop in Hrun.
  replace (Bytes.Compare startKey curKey <? -1)
    with false in Hrun by (symmetry; apply Z.ltb_ge; apply Compare_range).
  destruct (Bytes.Compare curKey (RangeTimeKey expiryPrefix current) >? 0) eqn:Hend.
  - exfalso. rewrite Z.gtb_ltb in Hend. apply Z.ltb_lt in Hend.
    destruct Hin as [E|Hin]; [inversion E; subst; lia|].
    specialize (Hmin _ Hin). unfold key_lt in Hmin. simpl in Hmin.
    apply Compare_pos_Gt, cmp_Gt_Lt in Hend.
    pose proof (cmp_Lt_trans _ _ _ Hend Hmin) as Hlt.
    assert (Hgt : Bytes.cmp (PrefixExpiryKey t r) (RangeTimeKey expiryPrefix current) = Gt)
      by (rewrite cmp_antisym, Hlt; reflexivity).
    apply Compare_pos_Gt in Hgt. lia.
  - monad. destruct (extractSpecificTimeKey curKey) as [tr|e|p] eqn:Hex;
      try discriminate.
    destruct Hin as [E|Hin].
    + inversion E; subst curKey pfx. unfold PrefixExpiryKey in Hex.
      rewrite (extract_of_specificTimeKey expiryPrefix t r Ht Hr) in Hex.
      inversion Hex; subst tr. simpl fst in Hrun. simpl snd in Hrun.
      eapply ExpireNext_loop_keeps_demoted; [exact Hrun| |].
      * apply Get_Put_same.
      * rewrite Get_Put_other by (apply info_key_not_time_key; now right).
        apply Get_Delete_same.
    + eapply IH; [exact Hrest|exact Hin|exact Hrun].
Qed.

(** X25. The three-step demotion: when [ExpireNext] returns no error on
    an ascending store, every expiry-schedule entry whose key lies, in
    byte order, between the start key and the end key of the scan is
    gone, the PrefixInfo record of the prefix it named is gone, and the
    pruning schedule holds an entry of the same timestamp and raw
    prefix. *)
Theorem ExpireNext_demotes (parent current t : Z) (r : ShortID) (prefix : bytes)
  (db db' : Database) :
  - 2 ^ 63 <= t < 2 ^ 63 ->
  length r = shortIDLen ->
  ascending (entries db) ->
  memdb.Get db (PrefixExpiryKey t r) = Some prefix ->
  0 <= Bytes.Compare (PrefixExpiryKey t r) (RangeTimeKey expiryPrefix parent) ->
  Bytes.Compare (PrefixExpiryKey t r) (RangeTimeKey expiryPrefix current) <= 0 ->
  ExpireNext parent current db = (Ret tt, db') ->
  memdb.Get db' (PrefixExpiryKey t r) = None /\
  memdb.Get db' (PrefixInfoKey prefix) = None /\
  memdb.Get db' (PrefixPruningKey t r) = Some [].
Proof.
  intros Ht Hr Hasc Hg Hge Hle Hrun. unfold ExpireNext, bind in Hrun. monad.
  pose proof (NewIteratorWithStart_ascending db (RangeTimeKey expiryPrefix parent) Hasc)
    as Hcasc.
  apply Get_In in Hg.
  assert (Hin : In (PrefixExpiryKey t r, prefix)
                  (memdb.NewIteratorWithStart db (RangeTimeKey expiryPrefix parent)))
    by (now apply NewIteratorWithStart_In).
  destruct (ExpireNext_loop_demotes _ current t r prefix Ht Hr Hle _ _ _ Hcasc Hin Hrun)
    as [Hp Hi].
  repeat split; auto.
  destruct (memdb.Get db' (PrefixExpiryKey t r)) as [v|] eqn:Hg'; [|reflexivity].
  exfalso. apply Get_In in Hg'.
  refine (ExpireNext_loop_clears (RangeTimeKey expiryPrefix parent) current _ db db'
            Hcasc _ Hrun _ _ Hg' Hge Hle).
  intros k v0 Hk Hk1 _. exists v0. now apply NewIteratorWithStart_In.
Qed.

End Scheduler.

(** ** Range reader: a scan without options is a point lookup *)

Lemma ascending_head (l : list (bytes * bytes)) (start v : bytes) :
  ascending l ->
  (forall k v', In (k, v') l -> 0 <= Bytes.Compare k start) ->
  In (start, v) l ->
  exists rest, l = (start, v) :: rest.
Proof.
  intros Hasc Hge Hin. destruct l as [|[k0 v0] rest]; [destruct Hin|].
  destruct Hin as [E|Hin]; [inversion E; subst; eauto|].
  exfalso. apply StronglySorted_inv in Hasc. destruct Hasc as [_ Hmin].
  rewrite Forall_forall in Hmin. specialize (Hmin _ Hin).
  unfold key_lt in Hmin. simpl in Hmin.
  specialize (Hge k0 v0 (or_introl eq_refl)).
  apply Compare_nonneg_not_Lt in Hge. contradiction.
Qed.

Section PointLookup.

Context `{Collaborators}.

Lemma PrefixValueKey_skip_header (r : ShortID) (key : bytes) :
  length r = shortIDLen ->
  skipn valueKeyHeaderLen (PrefixValueKey r key) = key.
Proof.
  intros Hr. unfold PrefixValueKey.
  replace (keyPrefix :: Delimiter :: r ++ Delimiter :: key)
    with ((keyPrefix :: Delimiter :: r ++ [Delimiter]) ++ key)
    by (simpl; now rewrite <- app_assoc).
  apply skipn_exact. simpl. rewrite length_app, Hr. reflexivity.
Qed.

(** X21. Without options [Range] is a point lookup: on an existing prefix
    it returns the one pair stored under the start key, or the empty
    non-nil list when the key holds no value.  The store is ascending, and
    a key shorter than the value-key header, if any lies at or after the
    start key, comes after a full-length key other than the start key. *)
Theorem Range_point_lookup (prefix key' : bytes) (db : Database) (i : PrefixInfo.t) :
  let startKey := PrefixValueKey (PrefixInfo.RawPrefix i) key' in
  GetPrefixInfo prefix db = (Ret (Some i), db) ->
  length (PrefixInfo.RawPrefix i) = shortIDLen ->
  ascending (entries db) ->
  (forall k v, In (k, v) (entries db) -> 0 <= Bytes.Compare k startKey ->
     (valueKeyHeaderLen <= length k)%nat \/
     exists k' v', In (k', v') (entries db) /\ 0 <= Bytes.Compare k' startKey /\
                   Bytes.cmp k' k = Lt /\ (valueKeyHeaderLen <= length k')%nat /\
                   k' <> startKey) ->
  Range prefix key' [] db =
    (Ret (Some match memdb.Get db startKey with
               | Some v => [mkKeyValue key' v]
               | None => []
               end), db).
Proof.
  intros startKey Hi Hr Hasc Hguard.
  unfold Range, bind. rewrite Hi. monad. cbn [applyOpts fold_left key rangeLimit].
  fold startKey.
  change (Range_endKey (PrefixInfo.RawPrefix i) (mkOp startKey [] 0%N)) with (@nil byte).
  assert (Hskip : skipn valueKeyHeaderLen startKey = key')
    by (apply PrefixValueKey_skip_header; exact Hr).
  clearbody startKey.
  assert (Hsafe : scan_safe startKey [] (memdb.NewIteratorWithStart db startKey)).
  { apply scan_safe_guarded; [now apply NewIteratorWithStart_ascending|].
    intros k v Hin. apply NewIteratorWithStart_In in Hin. destruct Hin as [Hin Hge].
    destruct (Hguard k v Hin Hge) as [Hl|(k' & v' & Hin' & Hge' & Hlt & Hl & Hne)];
      [now left|].
    right. exists k', v'. repeat split; auto.
    - now apply NewIteratorWithStart_In.
    - intros [E|[E _]]; [|unfold Bytes.len in E; simpl in E; lia].
      apply Compare_0_eq in E. congruence. }
  pose proof (NewIteratorWithStart_ascending db startKey Hasc) as Hcasc.
  assert (Hcge : forall k v, In (k, v) (memdb.NewIteratorWithStart db startKey) ->
                   0 <= Bytes.Compare k startKey)
    by (intros k v Hin; now apply NewIteratorWithStart_In in Hin).
  destruct (memdb.Get db startKey) as [v|] eqn:Hg.
  - apply Get_In in Hg.
    assert (Hc : In (startKey, v) (memdb.NewIteratorWithStart db startKey))
      by (apply NewIteratorWithStart_In; split; [exact Hg|rewrite Compare_refl; lia]).
    destruct (ascending_head _ _ _ Hcasc Hcge Hc) as (rest & Hcur).
    rewrite Hcur in Hsafe, Hcasc |- *.
    destruct Hsafe as [Hlong Hrest].
    cbn [Range_loop length N.of_nat N.eqb N.ltb N.compare andb app].
    replace (length startKey <? valueKeyHeaderLen)%nat with false
      by (symmetry; now apply Nat.ltb_ge).
    rewrite Compare_refl. cbn [Z.eqb].
    rewrite Hskip.
    destruct rest as [|[k1 v1] rest']; [reflexivity|].
    specialize (Hrest (or_introl (Compare_refl startKey))). destruct Hrest as [Hl1 _].
    apply StronglySorted_inv in Hcasc. destruct Hcasc as [_ Hmin].
    rewrite Forall_forall in Hmin. specialize (Hmin (k1, v1) (or_introl eq_refl)).
    unfold key_lt in Hmin. simpl in Hmin.
    cbn [Range_loop length N.of_nat N.eqb N.ltb N.compare andb app].
    replace (length k1 <? valueKeyHeaderLen)%nat with false
      by (symmetry; now apply Nat.ltb_ge).
    unfold Bytes.Compare. rewrite Hmin. reflexivity.
  - destruct (memdb.NewIteratorWithStart db startKey) as [|[k0 v0] rest] eqn:Hcur;
      [reflexivity|].
    destruct Hsafe as [Hlong _].
    assert (Hin0 : In (k0, v0) (entries db)).
    { assert (Hc : In (k0, v0) (memdb.NewIteratorWithStart db startKey))
        by (rewrite Hcur; now left).
      now apply NewIteratorWithStart_In in Hc. }
    assert (Hne : (Bytes.Compare startKey k0 =? 0) = false).
    { apply Z.eqb_neq. intros E. apply Compare_0_eq in E. subst k0.
      now apply (Get_None_not_In db startKey v0 Hg). }
    cbn [Range_loop length N.of_nat N.eqb N.ltb N.compare andb app].
    replace (length k0 <? valueKeyHeaderLen)%nat with false
      by (symmetry; now apply Nat.ltb_ge).
    rewrite Hne.
    replace (Bytes.Compare startKey k0 <? -1) with false
      by (symmetry; apply Z.ltb_ge; apply Compare_range).
    reflexivity.
Qed.

End PointLookup.

(** ** Blocks, transactions and transaction cost *)

Section LedgerFacts.

Context `{Collaborators}.

Lemma lastAccepted_not_block_key (bid : ID) : PrefixBlockKey bid <> lastAccepted.
Proof. discriminate. Qed.

(** X22. The last accepted block is read back: after [SetLastAccepted]
    of a block whose ID has 32 bytes, [GetLastAccepted] returns that ID,
    [GetBlock] of the ID returns the block's bytes and [HasLastAccepted] is
    true; on a store without the pointer [GetLastAccepted] returns the
    empty ID and no error. *)
Theorem SetLastAccepted_read_back (block : StatelessBlock) (db : Database) :
  length (blockID block) = idLen ->
  (exists db',
     SetLastAccepted block db = (Ret tt, db') /\
     GetLastAccepted db' = Some (blockID block) /\
     GetBlock db' (blockID block) = Some (blockBytes block) /\
     HasLastAccepted db' = (Ret true, db')) /\
  (HasLastAccepted db = (Ret false, db) -> GetLastAccepted db = Some IDEmpty).
Proof.
  intros Hl. split.
  - eexists. split; [reflexivity|].
    assert (Hp : memdb.Get
                   (memdb.Put (memdb.Put db lastAccepted (blockID block))
                      (PrefixBlockKey (blockID block)) (blockBytes block)) lastAccepted
                 = Some (blockID block))
      by (rewrite Get_Put_other by apply lastAccepted_not_block_key;
          apply Get_Put_same).
    repeat split.
    + unfold GetLastAccepted. rewrite Hp. unfold ToID. now rewrite Hl, Nat.eqb_refl.
    + unfold GetBlock. apply Get_Put_same.
    + unfold HasLastAccepted, memdb.Has. now rewrite Hp.
  - unfold HasLastAccepted, GetLastAccepted, memdb.Has.
    destruct (memdb.Get db lastAccepted); [discriminate|reflexivity].
Qed.

(** X23. A stored transaction is found, and only it is added: after a
    successful [SetTransaction], [HasTransaction] is true of the
    transaction's ID and unchanged for every other ID; when the
    transaction does not serialise, [SetTransaction] fails and writes
    nothing. *)
Theorem SetTransaction_HasTransaction (tx : Transaction) (db : Database) :
  (forall b, txMarshal tx = Some b ->
     exists db',
       SetTransaction tx db = (Ret tt, db') /\
       HasTransaction db' (txID tx) = true /\
       forall other, other <> txID tx ->
         HasTransaction db' other = HasTransaction db other) /\
  (txMarshal tx = None -> SetTransaction tx db = (Err ErrCodec, db)).
Proof.
  unfold SetTransaction. split.
  - intros b Hb. rewrite Hb. eexists. split; [reflexivity|]. split.
    + unfold HasTransaction, memdb.Has. now rewrite Get_Put_same.
    + intros other Hne. unfold HasTransaction, memdb.Has.
      rewrite Get_Put_other; [reflexivity|].
      unfold PrefixTxKey. intros E. injection E as E. congruence.
  - intros Hb. now rewrite Hb.
Qed.

(** X24. Every Set transaction costs at least one unit: a delete costs
    exactly 1, and a write costs between 1 and the unit cost of its value
    plus 1, for a positive discount and a value cost within [int64]. *)
Theorem SetTx_Units_bounds (SetValueDiscount : Z) (s : SetTx.t) :
  0 < SetValueDiscount ->
  0 <= Units (SetTx.Value s) < 2 ^ 63 - 1 ->
  (SetTx.Value s = [] -> SetTx_Units SetValueDiscount s = 1) /\
  1 <= SetTx_Units SetValueDiscount s <= Units (SetTx.Value s) + 1.
Proof.
  intros Hd Hu. unfold SetTx_Units. split.
  - intros ->. reflexivity.
  - destruct (Bytes.len (SetTx.Value s) =? 0); [lia|].
    assert (Hq : 0 <= Z.quot (Units (SetTx.Value s)) SetValueDiscount
                 <= Units (SetTx.Value s)).
    { rewrite Z.quot_div_nonneg by lia. split; [apply Z.div_pos; lia|].
      apply Z.div_le_upper_bound; [lia|]. nia. }
    unfold add64. rewrite (wrap64_small (Z.quot _ _)) by lia.
    rewrite wrap64_small by lia. lia.
Qed.

End LedgerFacts.

(** ** The added properties on concrete stores *)

Ltac decide_closed := vm_compute; repeat split; try reflexivity; try discriminate.

Lemma extractSpecificTimeKey_specificTimeKey_witness :
  extractSpecificTimeKey
    (specificTimeKey expiryPrefix 61 (PrefixInfo.RawPrefix Sample.info_claimed)
       (H := Sample.env))
  = Ret (61, PrefixInfo.RawPrefix Sample.info_claimed).
Proof.
  apply (@extractSpecificTimeKey_specificTimeKey Sample.env).
  - lia.
  - reflexivity.
Defined.

Lemma extractSpecificTimeKey_length_witness :
  extractSpecificTimeKey Sample.foo = Err ErrInvalidKeyFormat.
Proof.
  apply (proj1 (@extractSpecificTimeKey_length Sample.foo)).
  vm_compute. discriminate.
Defined.

Lemma specificTimeKey_inj_witness :
  expiryPrefix = expiryPrefix /\ 61 = 61 /\
  PrefixInfo.RawPrefix Sample.info_claimed = PrefixInfo.RawPrefix Sample.info_claimed.
Proof.
  apply (@specificTimeKey_inj Sample.env expiryPrefix expiryPrefix 61 61
           (PrefixInfo.RawPrefix Sample.info_claimed)
           (PrefixInfo.RawPrefix Sample.info_claimed)).
  - lia.
  - lia.
  - reflexivity.
Defined.

Lemma PrefixValueKey_inj_witness :
  PrefixInfo.RawPrefix Sample.info_claimed = PrefixInfo.RawPrefix Sample.info_claimed /\
  Sample.hello = Sample.hello.
Proof.
  apply (@PrefixValueKey_inj Sample.env).
  - reflexivity.
  - reflexivity.
Defined.

Lemma PutPrefixInfo_GetPrefixInfo_witness :
  exists db',
    Sample.PutPrefixInfo Sample.foo (Sample.claimed Sample.alice 1) (-1) memdb.New
    = (Ret tt, db') /\
    Sample.GetPrefixInfo Sample.foo db' = (Ret (Some Sample.info_claimed), db').
Proof.
  destruct (@PutPrefixInfo_GetPrefixInfo Sample.env Sample_ComputeHash160_len
              Sample.foo _ (Sample.claimed Sample.alice 1) (-1) memdb.New
              eq_refl)
    as (db' & Hrun & Hget & _).
  - vm_compute. reflexivity.
  - exists db'. split; [exact Hrun|exact Hget].
Defined.

Lemma PutPrefixInfo_retires_stale_witness :
  exists db',
    Sample.PutPrefixInfo Sample.foo Sample.info_renewed 61 Sample.db_claimed
    = (Ret tt, db') /\
    memdb.Get db' (Sample.PrefixExpiryKey 61 (PrefixInfo.RawPrefix Sample.info_claimed))
    = None.
Proof.
  apply (@PutPrefixInfo_retires_stale Sample.env Sample_ComputeHash160_len
           Sample.foo _ Sample.info_renewed 61 Sample.db_claimed eq_refl).
  - lia.
  - decide_closed.
  - decide_closed.
Defined.

Lemma PutPrefixKey_GetValue_witness :
  exists db',
    Sample.PutPrefixKey Sample.foo Sample.hello Sample.world Sample.db_claimed
    = (Ret tt, db') /\
    Sample.GetValue Sample.foo Sample.hello db' = (Ret (Some Sample.world), db').
Proof.
  destruct (@PutPrefixKey_GetValue Sample.env Sample.foo Sample.hello Sample.world
              Sample.info_claimed Sample.db_claimed)
    as (db' & Hrun & Hget & _).
  - vm_compute. reflexivity.
  - exists db'. split; [exact Hrun|exact Hget].
Defined.

Lemma PutPrefixKey_other_key_witness :
  fst (Sample.GetValue Sample.foo Sample.hello
         (Sample.after (Sample.PutPrefixKey Sample.foo Sample.world Sample.hello)
            Sample.db_hello))
  = fst (Sample.GetValue Sample.foo Sample.hello Sample.db_hello).
Proof.
  apply (@PutPrefixKey_other_key Sample.env Sample.foo Sample.world Sample.hello
           Sample.hello Sample.info_hello Sample.db_hello).
  - vm_compute. reflexivity.
  - discriminate.
  - vm_compute. reflexivity.
Defined.

Lemma DeletePrefixKey_GetValue_witness :
  exists db',
    Sample.DeletePrefixKey Sample.foo Sample.hello Sample.db_hello = (Ret tt, db') /\
    Sample.GetValue Sample.foo Sample.hello db' = (Ret None, db').
Proof.
  destruct (@DeletePrefixKey_GetValue Sample.env Sample.foo Sample.hello
              Sample.info_hello Sample.db_hello)
    as (db' & Hrun & Hget & _).
  - vm_compute. reflexivity.
  - exists db'. split; [exact Hrun|exact Hget].
Defined.

Lemma Has_agrees_with_Get_witness :
  HasPrefixKey Sample.foo Sample.hello Sample.db_hello (H := Sample.env)
  = (Ret true, Sample.db_hello).
Proof.
  apply (proj2 (@Has_agrees_with_Get Sample.env Sample.foo Sample.hello Sample.db_hello)
           (Some Sample.world)).
  vm_compute. reflexivity.
Defined.

Lemma Execute_read_back_witness :
  Sample.GetValue Sample.foo Sample.hello Sample.db_hello
  = (Ret (Some Sample.world), Sample.db_hello).
Proof.
  apply (proj1 (@Execute_read_back Sample.env Sample.set_hello 2 Sample.db_claimed
                  Sample.db_hello Sample.info_claimed
                  ltac:(vm_compute; reflexivity)
                  ltac:(vm_compute; reflexivity)
                  ltac:(intros b Hb; injection Hb as <-; vm_compute; reflexivity)
                  ltac:(vm_compute; reflexivity))).
Defined.

Lemma Execute_rejections_witness :
  Sample.Execute Sample.delete_hello 2 Sample.db_claimed
  = (Err ErrKeyMissing, Sample.db_claimed).
Proof.
  assert (Hk : CheckKey (SetTx.Key Sample.delete_hello) (Collaborators := Sample.env) = None)
    by reflexivity.
  assert (Hv : Bytes.len (SetTx.Value Sample.delete_hello)
               <= MaxValueLength (Collaborators := Sample.env))
    by (vm_compute; discriminate).
  apply (proj2 (proj2 (@Execute_rejections Sample.env Sample.delete_hello 2
                         Sample.db_claimed Hk Hv)
                  Sample.info_claimed
                  ltac:(vm_compute; reflexivity)
                  ltac:(vm_compute; reflexivity))).
  - vm_compute. discriminate.
  - reflexivity.
  - vm_compute. reflexivity.
Defined.

Lemma Execute_lease_accounting_witness :
  exists i',
    Sample.GetPrefixInfo Sample.foo Sample.db_leased_hello
    = (Ret (Some i'), Sample.db_leased_hello) /\
    PrefixInfo.Expiry i' = 10 + 200 / 3 /\
    200 - 3 < (PrefixInfo.Expiry i' - PrefixInfo.LastUpdated i') * PrefixInfo.Units i' <= 200.
Proof.
  destruct (@Execute_lease_accounting Sample.env Sample.set_hello 10 Sample.db_leased
              Sample.db_leased_hello Sample.info_leased
              ltac:(vm_compute; reflexivity)
              ltac:(vm_compute; reflexivity)
              ltac:(intros b Hb; injection Hb as <-; vm_compute; reflexivity)
              ltac:(decide_closed) ltac:(decide_closed) ltac:(decide_closed)
              ltac:(decide_closed) ltac:(decide_closed) ltac:(decide_closed)
              ltac:(vm_compute; reflexivity))
    as (Hget & _ & _ & Hexp & Hbound).
  eexists. split; [exact Hget|]. split; [exact Hexp|exact Hbound].
Defined.

Lemma Execute_zero_units_lease_witness :
  exists i',
    Sample.GetPrefixInfo Sample.foo Sample.db_hello = (Ret (Some i'), Sample.db_hello) /\
    PrefixInfo.Expiry i' = 2 /\ PrefixInfo.LastUpdated i' = 2.
Proof.
  eexists.
  apply (@Execute_zero_units_lease Sample.env Sample.set_hello 2 Sample.db_claimed
           Sample.db_hello Sample.info_claimed).
  - vm_compute. reflexivity.
  - vm_compute. reflexivity.
  - intros b Hb. injection Hb as <-. vm_compute. reflexivity.
  - reflexivity.
  - lia.
  - vm_compute. reflexivity.
Defined.

Lemma ExpireNext_keeps_values_witness :
  memdb.Get Sample.db_three_expired
    (Sample.PrefixValueKey (PrefixInfo.RawPrefix Sample.info_claimed) Sample.hello)
  = memdb.Get Sample.db_three_claimed
      (Sample.PrefixValueKey (PrefixInfo.RawPrefix Sample.info_claimed) Sample.hello).
Proof.
  apply (@ExpireNext_keeps_values Sample.env 0 100 Sample.db_three_claimed
           Sample.db_three_expired (Ret tt)).
  vm_compute. reflexivity.
Defined.

Lemma db_three_claimed_ascending : ascending (entries Sample.db_three_claimed).
Proof. unfold ascending, key_lt. vm_compute. repeat constructor. Qed.

Lemma ExpireNext_idempotent_witness :
  Sample.ExpireNext 0 100 Sample.db_three_expired = (Ret tt, Sample.db_three_expired).
Proof.
  apply (@ExpireNext_idempotent Sample.env 0 100 Sample.db_three_claimed
           Sample.db_three_expired).
  - exact db_three_claimed_ascending.
  - vm_compute. reflexivity.
Defined.

Lemma PruneNext_no_budget_witness :
  Sample.PruneNext 0 Sample.db_three_expired = (Ret tt, Sample.db_three_expired).
Proof. apply (@PruneNext_no_budget Sample.env 0 Sample.db_three_expired). lia. Defined.

Lemma PruneNext_only_prunes_witness :
  memdb.Get (Sample.after (Sample.PruneNext 2) Sample.db_three_expired)
    (Sample.PrefixInfoKey Sample.foo)
  = memdb.Get Sample.db_three_expired (Sample.PrefixInfoKey Sample.foo) /\
  memdb.Get (Sample.after (Sample.PruneNext 2) Sample.db_three_expired)
    (Sample.PrefixExpiryKey 61 (PrefixInfo.RawPrefix Sample.info_claimed))
  = memdb.Get Sample.db_three_expired
      (Sample.PrefixExpiryKey 61 (PrefixInfo.RawPrefix Sample.info_claimed)).
Proof.
  destruct (@PruneNext_only_prunes Sample.env 2 Sample.db_three_expired
              (Sample.after (Sample.PruneNext 2) Sample.db_three_expired) (Ret tt)
              ltac:(vm_compute; reflexivity))
    as (_ & Hinfo & Hexp).
  split; [apply Hinfo|apply Hexp].
Defined.

Lemma PruneNext_erases_values_witness :
  memdb.Get (Sample.after (Sample.PruneNext 100) Sample.db_three_expired)
    (Sample.PrefixValueKey (PrefixInfo.RawPrefix Sample.info_claimed) Sample.hello)
  = None.
Proof.
  apply (@PruneNext_erases_values Sample.env 100 61
           (PrefixInfo.RawPrefix Sample.info_claimed) Sample.db_three_expired).
  - lia.
  - reflexivity.
  - vm_compute. reflexivity.
  - vm_compute. discriminate.
  - vm_compute. reflexivity.
Defined.

Lemma ExpireNext_demotes_witness :
  memdb.Get Sample.db_three_expired
    (Sample.PrefixExpiryKey 61 (PrefixInfo.RawPrefix Sample.info_claimed)) = None /\
  memdb.Get Sample.db_three_expired (Sample.PrefixInfoKey Sample.foo) = None /\
  memdb.Get Sample.db_three_expired
    (Sample.PrefixPruningKey 61 (PrefixInfo.RawPrefix Sample.info_claimed)) = Some [].
Proof.
  apply (@ExpireNext_demotes Sample.env 0 100 61
           (PrefixInfo.RawPrefix Sample.info_claimed) Sample.foo
           Sample.db_three_claimed Sample.db_three_expired).
  - lia.
  - reflexivity.
  - exact db_three_claimed_ascending.
  - vm_compute. reflexivity.
  - vm_compute. discriminate.
  - vm_compute. discriminate.
  - vm_compute. reflexivity.
Defined.

Lemma Range_point_lookup_witness :
  Sample.Range Sample.foo Sample.hello [] Sample.db_hello_accepted
  = (Ret (Some [mkKeyValue Sample.hello Sample.world]), Sample.db_hello_accepted).
Proof.
  apply (@Range_point_lookup Sample.env Sample.foo Sample.hello
           Sample.db_hello_accepted Sample.info_hello).
  - vm_compute. reflexivity.
  - reflexivity.
  - unfold ascending, key_lt. vm_compute. repeat constructor.
  - intros k v Hin Hge. vm_compute in Hin.
    destruct Hin as [E|[E|[E|[E|[]]]]]; inversion E; subst k v; clear E.
    + exfalso. vm_compute in Hge. now apply Hge.
    + left. vm_compute. lia.
    + left. vm_compute. lia.
    + right.
      exists (Sample.PrefixExpiryKey 2 (PrefixInfo.RawPrefix Sample.info_hello)), Sample.foo.
      vm_compute. repeat split; try discriminate; try lia.
      right. right. left. reflexivity.
Defined.

Lemma SetLastAccepted_read_back_witness :
  exists db',
    SetLastAccepted Sample.block1 Sample.db_hello (H := Sample.env) = (Ret tt, db') /\
    GetLastAccepted db' = Some (blockID Sample.block1) /\
    GetBlock db' (blockID Sample.block1) (H := Sample.env) = Some (blockBytes Sample.block1).
Proof.
  destruct (proj1 (@SetLastAccepted_read_back Sample.env Sample.block1 Sample.db_hello
                     eq_refl))
    as (db' & Hrun & Hlast & Hblock & _).
  exists db'. repeat split; assumption.
Defined.

Lemma SetTransaction_HasTransaction_witness :
  exists db',
    SetTransaction Sample.tx1 Sample.db_hello (H := Sample.env) = (Ret tt, db') /\
    HasTransaction db' (txID Sample.tx1) (H := Sample.env) = true.
Proof.
  destruct (proj1 (@SetTransaction_HasTransaction Sample.env Sample.tx1 Sample.db_hello)
              Sample.world eq_refl)
    as (db' & Hrun & Hhas & _).
  exists db'. split; assumption.
Defined.

Lemma SetTx_Units_bounds_witness :
  1 <= SetTx_Units Sample.SetValueDiscount Sample.set_hello (H := Sample.env)
    <= Units (SetTx.Value Sample.set_hello) (Collaborators := Sample.env) + 1.
Proof.
  apply (@SetTx_Units_bounds Sample.env Sample.SetValueDiscount Sample.set_hello).
  - reflexivity.
  - decide_closed.
Defined.
